(** * CC_Marketers front-end script (static/js/main.js): model and properties

    The script is DOM glue: dropdown menus, a clipboard-copy helper, toast
    banners, client-side form validation, a debounce wrapper and a loading
    toggle.  Each part is embedded below as functions over an explicit piece
    of page state; the properties follow after all the definitions. *)

From Stdlib Require Import NArith Ascii String Lia.
From stdpp Require Import base option gmap strings list.

Open Scope N_scope.

(** ** JavaScript strings

    A JavaScript string is a sequence of UTF-16 code units; [length], the
    character classes of regular expressions and [trim] all work on code
    units, so that is what the model keeps. *)

Abbreviation jstr := (list N).

(** An ASCII literal of the source, as code units. *)
Definition lit (s : string) : jstr := map N_of_ascii (list_ascii_of_string s).

(** The HTML literals of the source are single-quoted JavaScript strings full
    of double quotes.  They are written here with an apostrophe wherever the
    source has a double quote (none of them contains an apostrophe of its
    own), and [html] puts the double quotes back. *)
Definition html (s : string) : jstr :=
  map (λ c, if c =? 39 then 34 else c) (lit s).

(** Truthiness of a string: every string but the empty one. *)
Definition truthy (s : jstr) : bool :=
  match s with [] => false | _ :: _ => true end.

(** [a === b] on strings. *)
Definition str_eqb (a b : jstr) : bool := bool_decide (a = b).

(** The class [\s] of the regular expressions, which is also what [trim]
    strips: WhiteSpace and LineTerminator code points. *)
Definition is_space (c : N) : bool :=
  (c =? 9) || (c =? 10) || (c =? 11) || (c =? 12) || (c =? 13) || (c =? 32)
  || (c =? 160) || (c =? 5760) || ((8192 <=? c) && (c <=? 8202))
  || (c =? 8232) || (c =? 8233) || (c =? 8239) || (c =? 8287)
  || (c =? 12288) || (c =? 65279).

Fixpoint trimStart (s : jstr) : jstr :=
  match s with
  | [] => []
  | c :: r => if is_space c then trimStart r else s
  end.

Definition trimEnd (s : jstr) : jstr := rev (trimStart (rev s)).

Definition trim (s : jstr) : jstr := trimEnd (trimStart s).

(** ** Regular expressions

    The two patterns of the script use character classes, concatenation and
    the quantifiers [?], [+] and [{0,n}]; both are anchored with [^] and [$]
    and carry no flag, so [test] asks whether the whole string is in the
    language.  Matching is by derivatives. *)

Module Regex.

Inductive regex : Type :=
| Void
| Eps
| Cls (p : N → bool)
| Cat (r1 r2 : regex)
| Alt (r1 r2 : regex)
| Star (r : regex).

(** [r?] *)
Definition Opt (r : regex) : regex := Alt r Eps.

(** [r+] *)
Definition Plus (r : regex) : regex := Cat r (Star r).

(** [r{0,n}] *)
Fixpoint Upto (n : nat) (r : regex) : regex :=
  match n with
  | O => Eps
  | S k => Opt (Cat r (Upto k r))
  end.

Fixpoint nullable (r : regex) : bool :=
  match r with
  | Void => false
  | Eps => true
  | Cls _ => false
  | Cat r1 r2 => nullable r1 && nullable r2
  | Alt r1 r2 => nullable r1 || nullable r2
  | Star _ => true
  end.

Fixpoint deriv (c : N) (r : regex) : regex :=
  match r with
  | Void => Void
  | Eps => Void
  | Cls p => if p c then Eps else Void
  | Cat r1 r2 =>
      if nullable r1 then Alt (Cat (deriv c r1) r2) (deriv c r2)
      else Cat (deriv c r1) r2
  | Alt r1 r2 => Alt (deriv c r1) (deriv c r2)
  | Star r1 => Cat (deriv c r1) (Star r1)
  end.

Fixpoint derivs (s : jstr) (r : regex) : regex :=
  match s with
  | [] => r
  | c :: s' => derivs s' (deriv c r)
  end.

(** [/^r$/.test(s)] *)
Definition test (r : regex) (s : jstr) : bool := nullable (derivs s r).

(** The language of a regular expression. *)
Inductive Matches : regex → jstr → Prop :=
| MEps : Matches Eps []
| MCls p c : p c = true → Matches (Cls p) [c]
| MCat r1 r2 s1 s2 :
    Matches r1 s1 → Matches r2 s2 → Matches (Cat r1 r2) (s1 ++ s2)
| MAltL r1 r2 s : Matches r1 s → Matches (Alt r1 r2) s
| MAltR r1 r2 s : Matches r2 s → Matches (Alt r1 r2) s
| MStarNil r : Matches (Star r) []
| MStarApp r s1 s2 :
    Matches r s1 → Matches (Star r) s2 → Matches (Star r) (s1 ++ s2).

End Regex.

(** ** Form validation *)

Module Validation.
Import Regex.

(** [[^\s@]] *)
Definition not_space_at (c : N) : bool := negb (is_space c || (c =? 64)).
(** [@] *)
Definition is_at (c : N) : bool := c =? 64.
(** [\.] *)
Definition is_dot (c : N) : bool := c =? 46.
(** [[\+]] *)
Definition is_plus (c : N) : bool := c =? 43.
(** [[1-9]] *)
Definition is_1_9 (c : N) : bool := (49 <=? c) && (c <=? 57).
(** [[\d]] *)
Definition is_digit (c : N) : bool := (48 <=? c) && (c <=? 57).

(** [/^[^\s@]+@[^\s@]+\.[^\s@]+$/] *)
Definition emailRegex : regex :=
  Cat (Plus (Cls not_space_at))
    (Cat (Cls is_at)
       (Cat (Plus (Cls not_space_at))
          (Cat (Cls is_dot) (Plus (Cls not_space_at))))).

(** [/^[\+]?[1-9][\d]{0,15}$/] *)
Definition phoneRegex : regex :=
  Cat (Opt (Cls is_plus)) (Cat (Cls is_1_9) (Upto 15 (Cls is_digit))).

Definition isValidEmail (email : jstr) : bool := test emailRegex email.

(** [phone.replace(/\s/g, '')] *)
Definition strip_spaces (s : jstr) : jstr := filter (λ c, is_space c = false) s.

Definition isValidPhone (phone : jstr) : bool :=
  test phoneRegex (strip_spaces phone).

(** The inline message element a failed field gets, a [<p>] in the field's
    parent. *)
Record error_element := ErrorElement {
  e_className : jstr;
  e_textContent : jstr
}.

Inductive tag := INPUT | TEXTAREA | SELECT.

Definition is_input (t : tag) : bool :=
  match t with INPUT => true | _ => false end.

(** A form control, with the properties the validator reads and writes. *)
Record field := Field {
  tagName : tag;
  value : jstr;
  type : jstr;
  name : jstr;
  required : bool;
  classList : gset string;
  parentElement : nat
}.

(** The part of the document the validator touches: the form controls in
    document order, and for every parent element its descendants of class
    [field-error], in document order. *)
Record document := Document {
  fields : list field;
  field_errors : gmap nat (list error_element)
}.

Definition set_classList (cl : gset string) (f : field) : field :=
  Field (tagName f) (value f) (type f) (name f) (required f) cl
        (parentElement f).

Definition set_fields (fs : list field) (d : document) : document :=
  Document fs (field_errors d).

Definition set_field_errors (es : gmap nat (list error_element))
    (d : document) : document :=
  Document (fields d) es.

(** [parent.querySelector('.field-error')] *)
Definition errors_of (d : document) (parent : nat) : list error_element :=
  default [] (field_errors d !! parent).

Definition clearFieldError (i : nat) (d : document) : document :=
  match fields d !! i with
  | None => d
  | Some f =>
      let cl := (classList f ∖ {["border-red-500"%string]}
                             ∖ {["ring-red-500"%string]})
                ∪ {["border-red-300"%string]} in
      let d1 := set_fields (<[i := set_classList cl f]> (fields d)) d in
      match errors_of d1 (parentElement f) with
      | [] => d1
      | _ :: rest =>
          set_field_errors (<[parentElement f := rest]> (field_errors d1)) d1
      end
  end.

Definition showFieldError (i : nat) (message : jstr) (d : document)
    : document :=
  match fields d !! i with
  | None => d
  | Some f =>
      let cl := (classList f ∪ {["border-red-500"%string]}
                             ∪ {["ring-red-500"%string]})
                ∖ {["border-red-300"%string]} in
      let d1 := set_fields (<[i := set_classList cl f]> (fields d)) d in
      let es :=
        match errors_of d1 (parentElement f) with
        | [] => [ErrorElement (lit "field-error text-red-600 text-sm mt-1")
                              message]
        | e :: rest => ErrorElement (e_className e) message :: rest
        end in
      set_field_errors (<[parentElement f := es]> (field_errors d1)) d1
  end.

(** [document.querySelector('input[name="password1"]')] *)
Definition query_password1 (d : document) : option field :=
  find (λ f, is_input (tagName f) && str_eqb (name f) (lit "password1"))
       (fields d).

Definition msg_required : jstr := lit "This field is required".
Definition msg_email : jstr := lit "Please enter a valid email address".
Definition msg_password : jstr :=
  lit "Password must be at least 8 characters long".
Definition msg_phone : jstr := lit "Please enter a valid phone number".
Definition msg_mismatch : jstr := lit "Passwords do not match".

(** [validateField(field)], the field being the [i]-th control of the
    document.  The result is the returned boolean and the document as the
    call leaves it; [None] only when there is no such control. *)
Definition validateField (i : nat) (d : document) : option (bool * document) :=
  match fields d !! i with
  | None => None
  | Some field =>
      let value := trim (value field) in
      let type := type field in
      let required := required field in
      let d := clearFieldError i d in
      if required && negb (truthy value) then
        Some (false, showFieldError i msg_required d)
      else if truthy value then
        if str_eqb type (lit "email") && negb (isValidEmail value) then
          Some (false, showFieldError i msg_email d)
        else if str_eqb type (lit "password")
                && str_eqb (name field) (lit "password1")
                && (length value <? 8)%nat then
          Some (false, showFieldError i msg_password d)
        else if str_eqb type (lit "tel") && negb (isValidPhone value) then
          Some (false, showFieldError i msg_phone d)
        else if str_eqb (name field) (lit "password2") then
          match query_password1 d with
          | Some password1 =>
              if negb (str_eqb value (Validation.value password1)) then
                Some (false, showFieldError i msg_mismatch d)
              else Some (true, d)
          | None => Some (true, d)
          end
        else Some (true, d)
      else Some (true, d)
  end.

(** What the user sees next to the [i]-th control: the text of the first
    [field-error] element of its parent. *)
Definition shown_error (i : nat) (d : document) : option jstr :=
  fields d !! i ≫= λ f, head (errors_of d (parentElement f))
  ≫= λ e, Some (e_textContent e).

End Validation.

(** ** What the specification says of the two formats

    These two predicates are written from the specification's words, to be
    compared with the patterns of the script. *)

Module FormatSpec.

(** A part of an address: not empty, no whitespace, no [@]. *)
Definition address_part (s : jstr) : Prop :=
  s ≠ [] ∧ Forall (λ c, is_space c = false ∧ c ≠ 64) s.

(** "a simple local@domain.tld pattern" *)
Definition email_shape (s : jstr) : Prop :=
  ∃ local domain tld,
    s = local ++ lit "@" ++ domain ++ lit "." ++ tld
    ∧ address_part local ∧ address_part domain ∧ address_part tld.

Definition digit (c : N) : Prop := 48 ≤ c ∧ c ≤ 57.

(** "an optional leading + followed by digits, first digit non-zero, total
    digits ≤ 16" *)
Definition phone_shape (s : jstr) : Prop :=
  ∃ sign digits,
    s = sign ++ digits
    ∧ (sign = [] ∨ sign = lit "+")
    ∧ Forall digit digits
    ∧ (∃ first rest, digits = first :: rest ∧ first ≠ 48)
    ∧ (length digits ≤ 16)%nat.

End FormatSpec.

(** ** Outcomes of single-field validation *)

Module Outcome.
Import Validation.

(** The call returns [true]. *)
Definition accepted (i : nat) (d : document) : Prop :=
  ∃ d', validateField i d = Some (true, d').

(** The call returns [false] and leaves [msg] displayed at the field. *)
Definition rejected_with (msg : jstr) (i : nat) (d : document) : Prop :=
  ∃ d', validateField i d = Some (false, d') ∧ shown_error i d' = Some msg.

(** Rule 2 of the validator, the check that depends on the field's type,
    lets the trimmed value [v] through. *)
Definition type_rule_passes (f : field) (v : jstr) : Prop :=
  (type f = lit "email" → isValidEmail v = true)
  ∧ (type f = lit "password" → name f = lit "password1" →
     (8 ≤ length v)%nat)
  ∧ (type f = lit "tel" → isValidPhone v = true).

(** The last check of [validateField] (the password confirmation), on the
    document [d1] that [clearFieldError] left and the trimmed value [v]. *)
Definition confirmation_rule (i : nat) (d1 : document) (f : field) (v : jstr)
    : option (bool * document) :=
  if str_eqb (name f) (lit "password2") then
    match query_password1 d1 with
    | Some password1 =>
        if negb (str_eqb v (value password1)) then
          Some (false, showFieldError i msg_mismatch d1)
        else Some (true, d1)
    | None => Some (true, d1)
    end
  else Some (true, d1).

(** Rule 3, the confirmation of the password, lets [v] through: it only
    looks at a field named [password2], and only when the document has an
    input named [password1]. *)
Definition confirmation_passes (d : document) (f : field) (v : jstr) : Prop :=
  name f = lit "password2" →
  ∀ password1, query_password1 d = Some password1 → v = value password1.

End Outcome.

(** ** Sample documents for the validator *)

Module Samples.
Import Validation.

(** An [<input>] with no class yet, child of the element [parent]. *)
Definition input (ty nm v : jstr) (req : bool) (parent : nat) : field :=
  Field INPUT v ty nm req ∅ parent.

(** A document with a single control. *)
Definition one_field (ty nm v : jstr) (req : bool) : document :=
  Document [input ty nm v req 0] ∅.

(** A sign-up form: [password1] holds [p1], [password2] holds [p2]. *)
Definition signup (p1 p2 : jstr) (req2 : bool) : document :=
  Document [input (lit "password") (lit "password1") p1 true 0;
            input (lit "password") (lit "password2") p2 req2 1] ∅.

End Samples.

(** ** Loading state *)

Module Loading.

(** An element, with what the two helpers read and write: its markup, its
    [data-*] attributes (keyed by their [dataset] name) and its [disabled]
    flag.  The displayed content of an element is identified with its
    [innerHTML]. *)
Record elem := Element {
  innerHTML : jstr;
  dataset : gmap string jstr;
  disabled : bool
}.

Definition spinner : jstr := html "<div class='spinner'></div>".

Definition showLoading (element : elem) : elem :=
  let originalContent := innerHTML element in
  Element spinner
          (<["originalContent"%string := originalContent]> (dataset element))
          true.

Definition hideLoading (element : elem) : elem :=
  let originalContent := dataset element !! "originalContent"%string in
  match originalContent with
  | Some content =>
      if truthy content then
        Element content (delete "originalContent"%string (dataset element))
                false
      else Element (innerHTML element) (dataset element) false
  | None => Element (innerHTML element) (dataset element) false
  end.

End Loading.

(** ** Dropdown menus *)

Module Dropdown.

(** A container of class [group]: whether it has a [button] descendant,
    whether it has a panel (the element of class [group-hover:opacity-100]),
    and its class list.  The trigger of a container is its first [button];
    containers are taken not to share one (they are not nested), so that a
    click on a trigger runs the listener of one container. *)
Record container := Container {
  button : bool;
  menu : bool;
  classList : gset string
}.

(** The dropdown is open: its container carries the class [active]. *)
Definition is_open (c : container) : bool :=
  bool_decide ("active"%string ∈ classList c).

Definition classList_remove (cls : string) (c : container) : container :=
  Container (button c) (menu c) (classList c ∖ {[cls]}).

Definition classList_toggle (cls : string) (c : container) : container :=
  Container (button c) (menu c)
            (if bool_decide (cls ∈ classList c) then classList c ∖ {[cls]}
             else classList c ∪ {[cls]}).

(** A listener was attached to the trigger of this container. *)
Definition wired (c : container) : bool := button c && menu c.

(** The listener on the trigger of the [i]-th container. *)
Definition trigger_listener (i : nat) (dropdowns : list container)
    : list container :=
  let closed :=
    imap (λ j other,
            if bool_decide (j ≠ i) then classList_remove "active" other
            else other)
         dropdowns in
  alter (classList_toggle "active") i closed.

(** The listener on the document. *)
Definition document_listener (dropdowns : list container) : list container :=
  classList_remove "active" <$> dropdowns.

(** A click.  On the trigger of a wired container the trigger's listener
    runs and stops the propagation; any other click reaches the document. *)
Inductive click := Trigger (i : nat) | Elsewhere.

Definition dispatch (e : click) (dropdowns : list container)
    : list container :=
  match e with
  | Trigger i =>
      match dropdowns !! i with
      | Some c =>
          if wired c then trigger_listener i dropdowns
          else document_listener dropdowns
      | None => document_listener dropdowns
      end
  | Elsewhere => document_listener dropdowns
  end.

(** The [i]-th dropdown is open. *)
Definition open_at (i : nat) (dropdowns : list container) : bool :=
  match dropdowns !! i with
  | Some c => is_open c
  | None => false
  end.

(** The convention of the data model: at most one dropdown is open. *)
Definition at_most_one_open (dropdowns : list container) : Prop :=
  ∀ j k, open_at j dropdowns = true → open_at k dropdowns = true → j = k.

End Dropdown.

(** ** Timers

    [setTimeout] and [clearTimeout] over a clock in milliseconds.  A timer
    is pending from the call that sets it until it fires or is cleared; the
    pending timers are kept in the order they were set. *)

Module Timers.
Local Open Scope nat_scope.

Section Queue.
Context {Cb : Type}.

Record timer := Timer { id : nat; due : nat; callback : Cb }.

Record queue := Queue { now : nat; pending : list timer; next_id : nat }.

(** No timer pending, the first handle is 1. *)
Definition idle (t : nat) : queue := Queue t [] 1.

Definition setTimeout (cb : Cb) (delay : nat) (q : queue) : nat * queue :=
  (next_id q,
   Queue (now q) (pending q ++ [Timer (next_id q) (now q + delay) cb])
         (S (next_id q))).

Definition unset (handle : nat) (l : list timer) : list timer :=
  filter (λ x, id x ≠ handle) l.

(** [clearTimeout(handle)]; the handle may be [undefined], and may name a
    timer that is no longer pending. *)
Definition clearTimeout (handle : option nat) (q : queue) : queue :=
  match handle with
  | None => q
  | Some h => Queue (now q) (unset h (pending q)) (next_id q)
  end.

(** The pending timer to fire first: the earliest due and, among those due
    at the same time, the one set first. *)
Fixpoint earliest (l : list timer) : option timer :=
  match l with
  | [] => None
  | x :: r =>
      match earliest r with
      | Some y => if due y <? due x then Some y else Some x
      | None => Some x
      end
  end.

(** The next timer to fire when the clock is allowed to reach [t]. *)
Definition next_due (t : nat) (q : queue) : option timer :=
  match earliest (pending q) with
  | Some x => if due x <=? t then Some x else None
  | None => None
  end.

(** The event loop takes a timer off the queue, the clock being at its due
    time or later. *)
Definition take (x : timer) (q : queue) : queue :=
  Queue (max (now q) (due x)) (unset (id x) (pending q)) (next_id q).

Definition set_now (t : nat) (q : queue) : queue :=
  Queue (max (now q) t) (pending q) (next_id q).

(** The event loop of a page whose state is [W]: [run] is what a callback
    does to the state. *)
Section Loop.
Context {W : Type}.
Variable queue_of : W → queue.
Variable with_queue : queue → W → W.
Variable run : Cb → W → W.

Definition fire (x : timer) (w : W) : W :=
  run (callback x) (with_queue (take x (queue_of w)) w).

Fixpoint fire_due (fuel : nat) (t : nat) (w : W) : W :=
  match fuel with
  | O => w
  | S fuel' =>
      match next_due t (queue_of w) with
      | Some x => fire_due fuel' t (fire x w)
      | None => w
      end
  end.

(** Let the clock reach [t]: every timer due by then fires, in order.  The
    callbacks of this script set no timer, so there are at most as many
    firings as there are pending timers. *)
Definition advance_to (t : nat) (w : W) : W :=
  let w' := fire_due (length (pending (queue_of w))) t w in
  with_queue (set_now t (queue_of w')) w'.

End Loop.
End Queue.

Arguments timer : clear implicits.
Arguments queue : clear implicits.

#[global] Instance timer_eq_dec {Cb} `{EqDecision Cb} : EqDecision (timer Cb).
Proof. solve_decision. Defined.

End Timers.

(** ** Debounce *)

Module Debounce.
Import Timers.
Local Open Scope nat_scope.

Section Debounce.
(** [func] takes arguments of type [A] and acts on the state [Env] of its
    surroundings. *)
Context {A Env : Type}.
Variable func : list A → Env → Env.
Variable wait : nat.

(** The closure [debounce] returns: the variable [timeout], next to the
    timers and the surroundings of [func].  A pending callback [later] is
    kept as the arguments it has captured. *)
Record state := State {
  timers : queue (list A);
  timeout : option nat;
  surroundings : Env
}.

(** [debounce(func, wait)] at time [t], in surroundings [s]: [timeout] is
    still undefined. *)
Definition debounce (t : nat) (s : Env) : state := State (idle t) None s.

Definition with_timers (q : queue (list A)) (st : state) : state :=
  State q (timeout st) (surroundings st).

(** [later], with the [args] of the invocation that made it. *)
Definition later (args : list A) (st : state) : state :=
  let st1 := with_timers (clearTimeout (timeout st) (timers st)) st in
  State (timers st1) (timeout st1) (func args (surroundings st1)).

Definition executedFunction (args : list A) (st : state) : state :=
  let q1 := clearTimeout (timeout st) (timers st) in
  let '(handle, q2) := setTimeout args wait q1 in
  State q2 (Some handle) (surroundings st).

Definition advance (t : nat) (st : state) : state :=
  advance_to timers with_timers later t st.

(** Invocations of the wrapper, each with its time; the clock runs from
    one to the next. *)
Fixpoint invocations (calls : list (nat * list A)) (st : state) : state :=
  match calls with
  | [] => st
  | (t, args) :: rest => invocations rest (executedFunction args (advance t st))
  end.



End Debounce.

Arguments state : clear implicits.

End Debounce.

(** ** The page: toasts and the copy controls *)

Module Page.
Import Timers.
Local Open Scope nat_scope.

(** An element of the page, with the properties the script reads and
    writes.  [value] is undefined on an element that is not a form control;
    [data_copy] is [dataset.copy].  The properties are kept as the script
    sets them: the model does not derive [textContent] from [innerHTML]. *)
Record node := Node {
  parentElement : option nat;
  children : list nat;
  className : jstr;
  innerHTML : jstr;
  value : option jstr;
  textContent : jstr;
  data_copy : option jstr
}.

(** What a timer of the page does when it fires: the arrow function of
    [showToast], with its [toast]; the arrow function of the copy listener,
    with its [this] and its [originalText]. *)
Inductive callback :=
| AutoRemove (toast : nat)
| RestoreContent (this : nat) (originalText : jstr).

#[global] Instance callback_eq_dec : EqDecision callback.
Proof. solve_decision. Defined.

Record page := Page {
  nodes : gmap nat node;
  next_node : nat;
  timers : queue callback;
  clipboard : jstr
}.

(** [document.body] *)
Definition body : nat := 0.

Inductive error := TypeError | SyntaxError.

(** How a listener ends: normally, or on an exception. *)
Inductive completion := Normal (p : page) | Throw (e : error) (p : page).

Definition with_nodes (ns : gmap nat node) (p : page) : page :=
  Page ns (next_node p) (timers p) (clipboard p).

Definition with_timers (q : queue callback) (p : page) : page :=
  Page (nodes p) (next_node p) q (clipboard p).

Definition with_clipboard (text : jstr) (p : page) : page :=
  Page (nodes p) (next_node p) (timers p) text.

Definition set_parentElement (o : option nat) (n : node) : node :=
  Node o (children n) (className n) (innerHTML n) (value n) (textContent n)
       (data_copy n).

Definition set_children (l : list nat) (n : node) : node :=
  Node (parentElement n) l (className n) (innerHTML n) (value n)
       (textContent n) (data_copy n).

Definition set_className (s : jstr) (n : node) : node :=
  Node (parentElement n) (children n) s (innerHTML n) (value n)
       (textContent n) (data_copy n).

Definition set_innerHTML (s : jstr) (n : node) : node :=
  Node (parentElement n) (children n) (className n) s (value n)
       (textContent n) (data_copy n).

(** [el.parentElement], [null] when detached. *)
Definition parent_of (el : nat) (p : page) : option nat :=
  nodes p !! el ≫= parentElement.

(** [el.innerHTML] *)
Definition innerHTML_of (el : nat) (p : page) : jstr :=
  default [] (innerHTML <$> nodes p !! el).

(** [document.createElement('div')] *)
Definition createElement (p : page) : nat * page :=
  (next_node p,
   Page (<[next_node p := Node None [] [] [] None [] None]> (nodes p))
        (S (next_node p)) (timers p) (clipboard p)).

(** [parent.appendChild(el)], for an [el] that has no parent yet. *)
Definition appendChild (parent el : nat) (p : page) : page :=
  with_nodes
    (alter (set_parentElement (Some parent)) el
       (alter (λ n, set_children (children n ++ [el]) n) parent (nodes p)))
    p.

(** [el.remove()]: nothing to do for an element without a parent. *)
Definition remove (el : nat) (p : page) : page :=
  match parent_of el p with
  | None => p
  | Some parent =>
      with_nodes
        (alter (set_parentElement None) el
           (alter (λ n, set_children (filter (λ c, c ≠ el) (children n)) n)
                  parent (nodes p)))
        p
  end.

(** *** Toasts *)

(** [classes[type] || classes.info], for a [type] that is one of the four
    keys or names no property at all. *)
Definition getToastClasses (type : jstr) : jstr :=
  if str_eqb type (lit "success") then lit "border-green-200 text-green-800 bg-green-50"
  else if str_eqb type (lit "error") then lit "border-red-200 text-red-800 bg-red-50"
  else if str_eqb type (lit "warning") then lit "border-yellow-200 text-yellow-800 bg-yellow-50"
  else lit "border-red-200 text-red-800 bg-red-50".

(** [icons[type] || icons.info] *)
Definition getToastIcon (type : jstr) : jstr :=
  if str_eqb type (lit "success") then
    html "<svg class='w-5 h-5 text-green-600' fill='currentColor' viewBox='0 0 20 20'><path fill-rule='evenodd' d='M10 18a8 8 0 100-16 8 8 0 000 16zm3.707-9.293a1 1 0 00-1.414-1.414L9 10.586 7.707 9.293a1 1 0 00-1.414 1.414l2 2a1 1 0 001.414 0l4-4z' clip-rule='evenodd'></path></svg>"
  else if str_eqb type (lit "error") then
    html "<svg class='w-5 h-5 text-red-600' fill='currentColor' viewBox='0 0 20 20'><path fill-rule='evenodd' d='M18 10a8 8 0 11-16 0 8 8 0 0116 0zm-7 4a1 1 0 11-2 0 1 1 0 012 0zm-1-9a1 1 0 00-1 1v4a1 1 0 102 0V6a1 1 0 00-1-1z' clip-rule='evenodd'></path></svg>"
  else if str_eqb type (lit "warning") then
    html "<svg class='w-5 h-5 text-yellow-600' fill='currentColor' viewBox='0 0 20 20'><path fill-rule='evenodd' d='M8.257 3.099c.765-1.36 2.722-1.36 3.486 0l5.58 9.92c.75 1.334-.213 2.98-1.742 2.98H4.42c-1.53 0-2.493-1.646-1.743-2.98l5.58-9.92zM11 13a1 1 0 11-2 0 1 1 0 012 0zm-1-8a1 1 0 00-1 1v3a1 1 0 002 0V6a1 1 0 00-1-1z' clip-rule='evenodd'></path></svg>"
  else
    html "<svg class='w-5 h-5 text-red-600' fill='currentColor' viewBox='0 0 20 20'><path fill-rule='evenodd' d='M18 10a8 8 0 11-16 0 8 8 0 0116 0zm-7-4a1 1 0 11-2 0 1 1 0 012 0zM9 9a1 1 0 000 2v3a1 1 0 001 1h1a1 1 0 100-2v-3a1 1 0 00-1-1H9z' clip-rule='evenodd'></path></svg>".

(** The template literal of [showToast]. *)
Definition toast_markup (icon message : jstr) : jstr :=
  html "
        <div class='flex items-center space-x-2'>
            " ++ icon ++ html "
            <span class='font-medium'>" ++ message ++ html "</span>
            <button onclick='this.parentElement.parentElement.remove()' class='ml-4 text-current hover:opacity-75'>
                <svg class='w-4 h-4' fill='currentColor' viewBox='0 0 20 20'>
                    <path fill-rule='evenodd' d='M4.293 4.293a1 1 0 011.414 0L10 8.586l4.293-4.293a1 1 0 111.414 1.414L11.414 10l4.293 4.293a1 1 0 01-1.414 1.414L10 11.414l-4.293 4.293a1 1 0 01-1.414-1.414L8.586 10 4.293 5.707a1 1 0 010-1.414z' clip-rule='evenodd'></path>
                </svg>
            </button>
        </div>
    ".

(** [toast.innerHTML = ...]: the markup, and the elements the parser makes
    of it that the dismiss control walks through: the wrapping [<div>] and,
    in it, the [<button>].  (The message is taken to be text, so that it
    adds no element of its own.) *)
Definition set_toast_markup (toast : nat) (markup : jstr) (p : page) : page :=
  let wrapper := next_node p in
  let button := S (next_node p) in
  Page (<[button := Node (Some wrapper) [] [] [] None [] None]>
          (<[wrapper := Node (Some toast) [button] [] [] None [] None]>
             (alter (λ n, set_children [wrapper] (set_innerHTML markup n))
                    toast (nodes p))))
       (S (S (next_node p))) (timers p) (clipboard p).

Definition showToast (message type : jstr) (duration : nat) (p : page) : page :=
  let '(toast, p) := createElement p in
  let p :=
    with_nodes (alter (set_className (lit "toast " ++ getToastClasses type))
                      toast (nodes p)) p in
  let icon := getToastIcon type in
  let p := set_toast_markup toast (toast_markup icon message) p in
  let p := appendChild body toast p in
  let '(_, q) := setTimeout (AutoRemove toast) duration (timers p) in
  with_timers q p.

(** The default [type] and [duration] of [showToast]. *)
Definition default_type : jstr := lit "info".
Definition default_duration : nat := 3000.

(** The [onclick] of the dismiss control:
    [this.parentElement.parentElement.remove()]. *)
Definition dismiss_click (this : nat) (p : page) : completion :=
  match parent_of this p with
  | None => Throw TypeError p
  | Some wrapper =>
      match parent_of wrapper p with
      | None => Throw TypeError p
      | Some toast => Normal (remove toast p)
      end
  end.

(** The timer of [showToast]. *)
Definition auto_remove (toast : nat) (p : page) : completion :=
  match parent_of toast p with
  | Some _ => Normal (remove toast p)
  | None => Normal p
  end.

(** *** Copy controls *)

(** The markup a control shows once the text is copied. *)
Definition copied_markup : jstr :=
  html "<svg class='w-4 h-4' fill='currentColor' viewBox='0 0 20 20'><path fill-rule='evenodd' d='M16.707 5.293a1 1 0 010 1.414l-8 8a1 1 0 01-1.414 0l-4-4a1 1 0 011.414-1.414L8 12.586l7.293-7.293a1 1 0 011.414 0z' clip-rule='evenodd'></path></svg><span>Copied!</span>".

(** The timer of the copy listener. *)
Definition restore_content (this : nat) (originalText : jstr) (p : page)
    : completion :=
  Normal (with_nodes (alter (set_innerHTML originalText) this (nodes p)) p).

Definition run_callback (cb : callback) (p : page) : completion :=
  match cb with
  | AutoRemove toast => auto_remove toast p
  | RestoreContent this originalText => restore_content this originalText p
  end.

(** An exception in a callback is reported and the loop goes on. *)
Definition run (cb : callback) (p : page) : page :=
  match run_callback cb p with
  | Normal p' => p'
  | Throw _ p' => p'
  end.

Definition advance (t : nat) (p : page) : page :=
  advance_to timers with_timers run t p.

(** [document.querySelector(selector)]: an element, [null], or a
    [SyntaxError] for a selector that does not parse. *)
Inductive selection := Found (el : nat) | NotFound | BadSelector.

(** [value || textContent] *)
Definition textToCopy (target : node) : jstr :=
  match value target with
  | Some v => if truthy v then v else textContent target
  | None => textContent target
  end.

(** Where the listener of a copy control stands after a click: it is done,
    it has thrown, or it awaits [navigator.clipboard.writeText(text)]. *)
Inductive suspended :=
| Done
| Rejected (e : error)
| Awaiting (text : jstr).

Section Copy.
(** The selector engine is not modelled: [querySelector] is any function of
    the page and the selector. *)
Variable querySelector : page → jstr → selection.

(** The listener, up to its [await].  A missing [data-copy] reads as
    [undefined], which [querySelector] takes as the selector
    ["undefined"]. *)
Definition copy_click (this : nat) (p : page) : suspended :=
  let targetSelector :=
    default (lit "undefined") (nodes p !! this ≫= data_copy) in
  match querySelector p targetSelector with
  | BadSelector => Rejected SyntaxError
  | NotFound => Done
  | Found targetElement =>
      match nodes p !! targetElement with
      | Some target => Awaiting (textToCopy target)
      | None => Done
      end
  end.

End Copy.

(** The listener, from its [await] on: [written] tells whether the write
    was fulfilled or rejected. *)
Definition copy_resume (this : nat) (text : jstr) (written : bool) (p : page)
    : page :=
  if written then
    let p := with_clipboard text p in
    let p := showToast (lit "Copied to clipboard!") (lit "success")
                       default_duration p in
    let originalText := innerHTML_of this p in
    let p := with_nodes (alter (set_innerHTML copied_markup) this (nodes p)) p in
    let '(_, q) := setTimeout (RestoreContent this originalText) 2000
                              (timers p) in
    with_timers q p
  else
    showToast (lit "Failed to copy to clipboard") (lit "error")
              default_duration p.

(** A page with a copy target of id [ref] (element 1), whose [value] is [v]
    and whose text is [text], and a copy control
    [<button data-copy="#ref">Copy</button>] (element 2). *)
Definition copy_page (v : option jstr) (text : jstr) : page :=
  Page (<[2 := Node (Some body) [] [] (lit "Copy") None (lit "Copy")
                    (Some (lit "#ref"))]>
          (<[1 := Node (Some body) [] [] [] v text None]>
             {[body := Node None [1; 2] [] [] None [] None]}))
       3 (idle 0) [].

(** A referral link in an [<input id="ref">]. *)
Definition referral_page (link : jstr) : page := copy_page (Some link) [].

(** The toast [showToast] makes for a [type], whatever the message. *)
Definition toast_of_type (type : jstr) (n : node) : Prop :=
  className n = lit "toast " ++ getToastClasses type
  ∧ ∃ message, innerHTML n = toast_markup (getToastIcon type) message.

(** The selector engine on that page. *)
Definition referral_select (p : page) (selector : jstr) : selection :=
  if str_eqb selector (lit "#ref") then Found 1 else NotFound.

(** The element ids the page has handed out are below [next_node], and
    [document.body] is one of them. *)
Definition page_ok (p : page) : Prop :=
  is_Some (nodes p !! body) ∧ ∀ k, next_node p ≤ k → nodes p !! k = None.

(** The handles of the pending timers are below the next handle. *)
Definition queue_ok (q : queue callback) : Prop :=
  ∀ x, x ∈ pending q → id x < next_id q.

(** No pending timer is there to put content back into the control
    [this]: it has not been activated in the last 2000 ms. *)
Definition no_restore_pending (this : nat) (q : queue callback) : Prop :=
  ∀ x html, x ∈ pending q → Timers.callback x ≠ RestoreContent this html.

(** The control [this] shows the confirmation and [ours], the one timer
    that will put its content back, is pending. *)
Definition showing_copied (this : nat) (ours : timer callback) (p : page)
    : Prop :=
  is_Some (nodes p !! this)
  ∧ innerHTML_of this p = copied_markup
  ∧ ours ∈ pending (timers p)
  ∧ ∀ x, x ∈ pending (timers p) → x ≠ ours →
         id x ≠ id ours ∧ ∀ html, Timers.callback x ≠ RestoreContent this html.

(** The control [this] shows [content] again and nothing is pending for
    it. *)
Definition restored (this : nat) (content : jstr) (p : page) : Prop :=
  innerHTML_of this p = content ∧ no_restore_pending this (timers p).

End Page.

(** ** The listeners of a validated form *)

Module Forms.
Import Validation.

(** The [blur] listener of a control: [validateField(input)], the result
    dropped. *)
Definition blur_listener (input : nat) (d : document) : document :=
  match validateField input d with
  | Some (_, d') => d'
  | None => d
  end.

(** The [input] listener of a control. *)
Definition input_listener (input : nat) (d : document) : document :=
  clearFieldError input d.

(** The [forEach] of the [submit] listener over the controls of the form:
    every control is validated, and [isValid] ends [false] when one of the
    calls returned [false]. *)
Definition validate_inputs (inputs : list nat) (d : document)
    : bool * document :=
  foldl (λ acc input,
           match validateField input acc.2 with
           | Some (ok, d') => (if negb ok then false else acc.1, d')
           | None => acc
           end)
        (true, d) inputs.

(** The [submit] listener of a form: the controls are validated, and when
    one is invalid the submission is cancelled and a toast is shown.  The
    first component tells whether [preventDefault] was called. *)
Definition submit_listener (inputs : list nat) (d : document) (p : Page.page)
    : bool * document * Page.page :=
  let '(isValid, d') := validate_inputs inputs d in
  if negb isValid then
    (true, d',
     Page.showToast (lit "Please correct the errors below") (lit "error")
                    Page.default_duration p)
  else (false, d', p).

(** The boolean [validateField] returns for the [i]-th control. *)
Definition valid (d : document) (i : nat) : option bool :=
  fst <$> validateField i d.

(** The five messages of the validator. *)
Definition messages : list jstr :=
  [msg_required; msg_email; msg_password; msg_phone; msg_mismatch].

(** The styling of a control marked invalid, and of one that is not. *)
Definition marked_invalid (i : nat) (d : document) : Prop :=
  ∃ f, fields d !! i = Some f
       ∧ "border-red-500"%string ∈ classList f
       ∧ "ring-red-500"%string ∈ classList f
       ∧ ("border-red-300"%string ∉ classList f).

Definition marked_neutral (i : nat) (d : document) : Prop :=
  ∃ f, fields d !! i = Some f
       ∧ ("border-red-500"%string ∉ classList f)
       ∧ ("ring-red-500"%string ∉ classList f)
       ∧ "border-red-300"%string ∈ classList f.

(** What a control is apart from its styling. *)
Definition unstyled (f : field) : field := set_classList ∅ f.

End Forms.

(** ** Clicks can be told apart *)

Module DropdownClicks.
Import Dropdown.

#[global] Instance click_eq_dec : EqDecision click.
Proof. solve_decision. Defined.

End DropdownClicks.

(** ** The range of a timer's delay

    [setTimeout] takes its delay as a signed 32-bit integer, so that a delay
    of 2^31 ms or more does not wait that long.  [Timers.setTimeout] is the
    timer for the delays below that. *)

Module TimerRange.

Definition max_delay : N := 2147483647.

Definition in_range (delay : nat) : Prop := (N.of_nat delay <= max_delay)%N.

End TimerRange.

(** ** The calls a debounced function makes *)

Module DebounceCalls.
Import Timers Debounce.
Local Open Scope nat_scope.

Section Calls.
Context {A Env : Type}.
Variable func : list A → Env → Env.
Variable wait : nat.

(** What happens to the wrapper: it is invoked at the time [t], or the event
    loop gets its turn at the time [t] and runs the timers that are due.  An
    invocation can come when the pending timer is already due, the loop not
    having had its turn since: two invocations from one task, or a main
    thread that was busy. *)
Inductive event :=
| Invoke (t : nat) (args : list A)
| Turn (t : nat).

Definition time_of (e : event) : nat :=
  match e with Invoke t _ => t | Turn t => t end.

(** An invocation runs [executedFunction] with the clock at [t], and no
    timer fires for it; a turn of the loop is [advance]. *)
Definition step (st : state A Env) (e : event) : state A Env :=
  match e with
  | Invoke t args =>
      executedFunction wait args (with_timers (set_now t (timers st)) st)
  | Turn t => advance func t st
  end.

Definition run_events (es : list event) (st : state A Env) : state A Env :=
  foldl step st es.

(** The calls of [func] that the events [es] lead to, as the arguments of
    each, in order: [waiting] is the invocation not yet answered, with the
    time its timer is due.  An invocation is answered by the first turn of
    the loop at its due time or later, unless another invocation comes
    before that turn. *)
Fixpoint calls (waiting : option (nat * list A)) (es : list event)
    : list (list A) :=
  match es with
  | [] => []
  | Invoke t args :: rest => calls (Some (t + wait, args)) rest
  | Turn t :: rest =>
      match waiting with
      | Some (due, args) =>
          if due <=? t then args :: calls None rest else calls waiting rest
      | None => calls None rest
      end
  end.

(** The events come in the order of their times, none before [t]. *)
Fixpoint ascending_from (t : nat) (es : list event) : Prop :=
  match es with
  | [] => True
  | e :: rest => t ≤ time_of e ∧ ascending_from (time_of e) rest
  end.

(** The state of the closure when the clock is at [t], the surroundings of
    [func] are [s] and the invocation [waiting] is not yet answered: its
    timer is the one pending, under the handle [timeout] holds. *)
Definition tracks (waiting : option (nat * list A)) (s : Env) (t : nat)
    (st : state A Env) : Prop :=
  now (timers st) = t
  ∧ surroundings st = s
  ∧ match waiting with
    | None => pending (timers st) = []
    | Some (due, args) =>
        ∃ h, pending (timers st) = [Timer h due args] ∧ timeout st = Some h
    end.

End Calls.

End DebounceCalls.

(** ** More of the page: the toasts over time, the flash messages *)

Module PageMore.
Import Timers Page.
Local Open Scope nat_scope.

(** [el.children], as ids. *)
Definition children_of (el : nat) (p : page) : list nat :=
  default [] (children <$> nodes p !! el).

(** [el.textContent] *)
Definition textContent_of (el : nat) (p : page) : jstr :=
  default [] (textContent <$> nodes p !! el).

(** The pending timers of [showToast] are for toasts that exist. *)
Definition toasts_known (p : page) : Prop :=
  ∀ x toast, x ∈ pending (timers p) →
             Timers.callback x = AutoRemove toast → toast < next_node p.

(** The toast [toast] is in the body and [ours], the one timer that will
    remove it, is pending. *)
Definition toast_shown (toast : nat) (ours : timer callback) (p : page)
    : Prop :=
  parent_of toast p = Some body
  ∧ toast ∈ children_of body p
  ∧ ours ∈ pending (timers p)
  ∧ ∀ x, x ∈ pending (timers p) → x ≠ ours →
         id x ≠ id ours ∧ Timers.callback x ≠ AutoRemove toast.

(** The toast is out of the document. *)
Definition toast_gone (toast : nat) (p : page) : Prop :=
  parent_of toast p = None ∧ toast ∉ children_of body p.

(** The names every object inherits from [Object.prototype], as the
    language defines it: under these [classes[type]] and [icons[type]] find
    a value that the two tables do not list, and the fallback to [info] does
    not apply. *)
Definition inherited_names : list jstr :=
  [lit "constructor"; lit "__proto__"; lit "hasOwnProperty";
   lit "isPrototypeOf"; lit "propertyIsEnumerable"; lit "toString";
   lit "toLocaleString"; lit "valueOf"; lit "__defineGetter__";
   lit "__defineSetter__"; lit "__lookupGetter__"; lit "__lookupSetter__"].

(** A [type] that is a key of the two tables or names no property at all,
    which is what [getToastClasses] and [getToastIcon] model. *)
Definition own_or_absent (type : jstr) : Prop := type ∉ inherited_names.

(** A code unit that the HTML parser reads as text and that is written
    back as it stands when the markup is read: not [<], [>] or [&], not a
    no-break space, a carriage return or NUL, and not a surrogate. *)
Definition text_unit (c : N) : bool :=
  negb ((c =? 0) || (c =? 13) || (c =? 38) || (c =? 60) || (c =? 62)
        || (c =? 160) || ((55296 <=? c) && (c <=? 57343)))%N.

(** A message that is text, as [set_toast_markup] takes it to be. *)
Definition plain_text (message : jstr) : Prop :=
  forallb text_unit message = true.

(** [initializeToasts]: [djangoMessages] are the elements of class
    [django-message], each with its [dataset.level] (which may be
    undefined, and then the default [type] of [showToast] applies). *)
Definition flash (p : page) (m : nat * option jstr) : page :=
  let '(message, level) := m in
  let type := default default_type level in
  let text := textContent_of message p in
  remove message (showToast text type default_duration p).

Definition initializeToasts (djangoMessages : list (nat * option jstr))
    (p : page) : page :=
  foldl flash p djangoMessages.

End PageMore.

(** ** The start-up of the copy controls *)

Module CopyInit.
Import Page.
Local Open Scope nat_scope.

Definition set_data_copy (s : jstr) (n : node) : node :=
  Node (parentElement n) (children n) (className n) (innerHTML n) (value n)
       (textContent n) (Some s).

Definition has_data_copy (n : node) : bool :=
  match data_copy n with Some _ => true | None => false end.

(** [document.querySelectorAll('[data-copy]')], a list made once: the
    elements that carry the attribute when the script starts. *)
Definition copyButtons (p : page) : gset nat :=
  dom (filter (λ kn, has_data_copy kn.2 = true) (nodes p)).

(** The body of the loop over the referral inputs.  An input comes with its
    [id] and with [input.parentElement.querySelector('button')], which may
    be [null]. *)
Definition wire_referral (p : page) (input : jstr * option nat) : page :=
  let '(id, copyBtn) := input in
  match copyBtn with
  | Some btn =>
      match nodes p !! btn with
      | Some n =>
          if has_data_copy n then p
          else with_nodes (<[btn := set_data_copy (lit "#" ++ id) n]>
                             (nodes p)) p
      | None => p
      end
  | None => p
  end.

(** [initializeCopyButtons]: the click listener goes to the [copyButtons]
    of that moment, then the referral inputs are gone through.  The result
    is the set of elements with a listener, and the page. *)
Definition initializeCopyButtons (referralInputs : list (jstr * option nat))
    (p : page) : gset nat * page :=
  (copyButtons p, foldl wire_referral p referralInputs).

(** A referral link in an [<input id="ref">] (element 1) next to a
    [<button>Copy</button>] without [data-copy] (element 2). *)
Definition referral_markup : page :=
  Page (<[2 := Node (Some body) [] [] (lit "Copy") None (lit "Copy") None]>
          (<[1 := Node (Some body) [] [] []
                       (Some (lit "https://cc.example/ref/abc")) [] None]>
             {[body := Node None [1; 2] [] [] None [] None]}))
       3 (Timers.idle 0) [].

Section Click.
Variable querySelector : page → jstr → selection.

(** A click on [el], given the elements that have the listener. *)
Definition click_on (listeners : gset nat) (el : nat) (p : page)
    : suspended :=
  if bool_decide (el ∈ listeners) then copy_click querySelector el p
  else Done.

End Click.

End CopyInit.

(** ** The mobile menu *)

Module MobileMenu.

(** The class lists the two listeners touch: that of the panel, and those
    of the two icons of the toggle control, when it has them.  (The
    listeners are attached only when toggle control and panel both exist,
    which is the case modelled.) *)
Record state := State {
  mobileMenu : gset string;
  openIcon : option (gset string);
  closeIcon : option (gset string)
}.

(** [classList.toggle(cls)] *)
Definition toggle (cls : string) (cl : gset string) : gset string :=
  if bool_decide (cls ∈ cl) then cl ∖ {[cls]} else cl ∪ {[cls]}.

(** The listener on the toggle control. *)
Definition button_listener (st : state) : state :=
  let menu := toggle "hidden" (mobileMenu st) in
  match openIcon st, closeIcon st with
  | Some o, Some c =>
      State menu (Some (toggle "hidden" o)) (Some (toggle "hidden" c))
  | _, _ => State menu (openIcon st) (closeIcon st)
  end.

(** Where the target of a click lies. *)
Inductive place := OnToggle | InPanel | Outside.

(** The listener on the document. *)
Definition document_listener (target : place) (st : state) : state :=
  match target with
  | Outside =>
      State (mobileMenu st ∪ {["hidden"%string]}) (openIcon st) (closeIcon st)
  | OnToggle | InPanel => st
  end.

(** A click that reaches the document: on the toggle control its own
    listener runs first. *)
Definition click (target : place) (st : state) : state :=
  document_listener target
    (match target with
     | OnToggle => button_listener st
     | InPanel | Outside => st
     end).

(** The element with this class list is not displayed. *)
Definition hidden (cl : gset string) : Prop := "hidden"%string ∈ cl.

(** Of the two icons, if there are two, one is displayed. *)
Definition one_icon_shown (st : state) : Prop :=
  ∀ o c, openIcon st = Some o → closeIcon st = Some c →
         (hidden o ↔ ¬ hidden c).

End MobileMenu.

(** ** Progress bars *)

Module Progress.
Import Timers.
Local Open Scope nat_scope.

(** A progress bar: [dataset.progress] and [style.width]. *)
Record bar := Bar { data_progress : option jstr; width : jstr }.

(** The timer of the observer callback, with its [progressBar] and its
    [targetWidth]. *)
Inductive callback := Reveal (progressBar : nat) (targetWidth : jstr).

#[global] Instance callback_eq_dec : EqDecision callback.
Proof. solve_decision. Defined.

Record page := Page { bars : gmap nat bar; timers : queue callback }.

(** An [IntersectionObserverEntry]. *)
Record entry := Entry { target : nat; isIntersecting : bool }.

Definition with_bars (bs : gmap nat bar) (p : page) : page :=
  Page bs (timers p).

Definition with_timers (q : queue callback) (p : page) : page :=
  Page (bars p) q.

(** [bar.style.width] *)
Definition width_of (b : nat) (p : page) : jstr :=
  default [] (width <$> bars p !! b).

Section Style.
(** An assignment to [style.width] takes effect when the value parses as a
    width; the parser is not modelled. *)
Variable valid_width : jstr → bool.

Definition set_width (v : jstr) (b : bar) : bar :=
  if valid_width v then Bar (data_progress b) v else b.

(** [dataset.progress || '0'] *)
Definition targetWidth_of (b : option bar) : jstr :=
  match b ≫= data_progress with
  | Some s => if truthy s then s else lit "0"
  | None => lit "0"
  end.

(** The body of the loop over the entries. *)
Definition on_entry (p : page) (e : entry) : page :=
  if isIntersecting e then
    let progressBar := target e in
    let targetWidth := targetWidth_of (bars p !! progressBar) in
    let p := with_bars (alter (set_width (lit "0%")) progressBar (bars p)) p in
    let '(_, q) := setTimeout (Reveal progressBar targetWidth) 100
                              (timers p) in
    with_timers q p
  else p.

(** The callback of the observer. *)
Definition observer_callback (entries : list entry) (p : page) : page :=
  foldl on_entry p entries.

Definition run (cb : callback) (p : page) : page :=
  match cb with
  | Reveal progressBar targetWidth =>
      with_bars (alter (set_width (targetWidth ++ lit "%")) progressBar
                       (bars p)) p
  end.

Definition advance (t : nat) (p : page) : page :=
  advance_to timers with_timers run t p.

End Style.

(** The handles of the pending timers are below the next handle. *)
Definition queue_ok (q : queue callback) : Prop :=
  ∀ x, x ∈ pending q → id x < next_id q.

(** No reveal of the bar [b] is pending. *)
Definition no_reveal_pending (b : nat) (q : queue callback) : Prop :=
  ∀ x w, x ∈ pending q → Timers.callback x ≠ Reveal b w.

(** The bar [b] is at 0% and [ours], the one timer that will reveal it, is
    pending. *)
Definition at_zero (b : nat) (ours : timer callback) (p : page) : Prop :=
  is_Some (bars p !! b)
  ∧ width_of b p = lit "0%"
  ∧ ours ∈ pending (timers p)
  ∧ ∀ x, x ∈ pending (timers p) → x ≠ ours →
         id x ≠ id ours ∧ ∀ w, Timers.callback x ≠ Reveal b w.

(** The bar [b] is at [w] and no reveal of it is pending. *)
Definition revealed (b : nat) (w : jstr) (p : page) : Prop :=
  width_of b p = w ∧ no_reveal_pending b (timers p).

End Progress.

(** ** The loading toggle, with the parser in between

    Assigning a string to [innerHTML] parses it, and reading [innerHTML]
    writes the children out again, which need not give the string that was
    assigned (a line feed at the start of a [<pre>] is dropped by the
    parser).  The parser is not modelled: [reparsed s] is any function that
    gives the markup read from an element after [s] has been assigned to
    its [innerHTML].  A [data-*] attribute holds its string as it is. *)

Module LoadingDom.
Import Loading.

Section Parser.
Variable reparsed : jstr → jstr.

Definition showLoading (element : elem) : elem :=
  let originalContent := innerHTML element in
  Element (reparsed spinner)
          (<["originalContent"%string := originalContent]> (dataset element))
          true.

Definition hideLoading (element : elem) : elem :=
  let originalContent := dataset element !! "originalContent"%string in
  match originalContent with
  | Some content =>
      if truthy content then
        Element (reparsed content)
                (delete "originalContent"%string (dataset element)) false
      else Element (innerHTML element) (dataset element) false
  | None => Element (innerHTML element) (dataset element) false
  end.

End Parser.

End LoadingDom.

(** * Properties *)

(** ** Regular expressions: the matcher decides the language *)

Module RegexFacts.
Import Regex.

Lemma Matches_Void s : Matches Void s ↔ False.
Proof. split; [intros H; inversion H | done]. Qed.

Lemma Matches_Eps s : Matches Eps s ↔ s = [].
Proof. split; [intros H; by inversion H | intros ->; constructor]. Qed.

Lemma Matches_Cls p s : Matches (Cls p) s ↔ ∃ c, s = [c] ∧ p c = true.
Proof.
  split.
  - intros H; inversion H; subst; eauto.
  - intros (c & -> & H). by constructor.
Qed.

Lemma Matches_Cat r1 r2 s :
  Matches (Cat r1 r2) s ↔ ∃ s1 s2, s = s1 ++ s2 ∧ Matches r1 s1 ∧ Matches r2 s2.
Proof.
  split.
  - intros H; inversion H; subst; eauto.
  - intros (s1 & s2 & -> & H1 & H2). by constructor.
Qed.

Lemma Matches_Alt r1 r2 s :
  Matches (Alt r1 r2) s ↔ Matches r1 s ∨ Matches r2 s.
Proof.
  split.
  - intros H; inversion H; subst; auto.
  - intros [H|H]; [by apply MAltL | by apply MAltR].
Qed.

Lemma Matches_nil_nullable r : Matches r [] → nullable r = true.
Proof.
  intros H. remember [] as s eqn:Hs. induction H; simpl; auto; try discriminate.
  - apply app_eq_nil in Hs as [-> ->]. rewrite IHMatches1, IHMatches2; auto.
  - rewrite IHMatches; auto.
  - rewrite IHMatches; auto. apply orb_true_r.
Qed.

Lemma nullable_Matches_nil r : nullable r = true → Matches r [].
Proof.
  induction r; simpl; intros H; try discriminate.
  - constructor.
  - apply andb_true_iff in H as [H1 H2].
    apply Matches_Cat. exists [], []. auto.
  - apply Matches_Alt. apply orb_true_iff in H as [H|H]; auto.
  - constructor.
Qed.

Lemma Matches_Star_cons r c s :
  Matches (Star r) (c :: s) →
  ∃ s1 s2, s = s1 ++ s2 ∧ Matches r (c :: s1) ∧ Matches (Star r) s2.
Proof.
  intros H. remember (Star r) as r' eqn:Hr. remember (c :: s) as w eqn:Hw.
  revert s Hw. induction H; intros t Hw; try discriminate.
  injection Hr as ->. destruct s1 as [|c1 s1]; simpl in Hw.
  - apply IHMatches2; auto.
  - injection Hw as -> <-. eauto.
Qed.

Lemma deriv_sound c r s : Matches (deriv c r) s → Matches r (c :: s).
Proof.
  revert s. induction r as [| |p|r1 IH1 r2 IH2|r1 IH1 r2 IH2|r IH];
    simpl; intros s H.
  - by apply Matches_Void in H.
  - by apply Matches_Void in H.
  - destruct (p c) eqn:Hp; [|by apply Matches_Void in H].
    apply Matches_Eps in H as ->. by constructor.
  - assert (Matches (Cat (deriv c r1) r2) s → Matches (Cat r1 r2) (c :: s))
      as Hcat.
    { intros (s1 & s2 & -> & H1 & H2)%Matches_Cat.
      apply Matches_Cat. exists (c :: s1), s2. auto. }
    destruct (nullable r1) eqn:Hn; [|auto].
    apply Matches_Alt in H as [H|H]; [auto|].
    apply Matches_Cat. exists [], (c :: s). auto using nullable_Matches_nil.
  - apply Matches_Alt. apply Matches_Alt in H as [H|H]; auto.
  - apply Matches_Cat in H as (s1 & s2 & -> & H1 & H2).
    change (c :: s1 ++ s2) with ((c :: s1) ++ s2). constructor; auto.
Qed.

Lemma deriv_complete c r s : Matches r (c :: s) → Matches (deriv c r) s.
Proof.
  revert s. induction r as [| |p|r1 IH1 r2 IH2|r1 IH1 r2 IH2|r IH];
    simpl; intros s H.
  - by apply Matches_Void in H.
  - by apply Matches_Eps in H.
  - apply Matches_Cls in H as (c' & [= -> ->] & Hc). rewrite Hc. constructor.
  - apply Matches_Cat in H as (s1 & s2 & Hs & H1 & H2).
    destruct s1 as [|c1 s1]; simpl in Hs.
    + subst s2. rewrite (Matches_nil_nullable _ H1).
      apply Matches_Alt. auto.
    + injection Hs as <- ->.
      assert (Matches (Cat (deriv c r1) r2) (s1 ++ s2)) as Hcat.
      { apply Matches_Cat. exists s1, s2. auto. }
      destruct (nullable r1); [apply Matches_Alt|]; auto.
  - apply Matches_Alt. apply Matches_Alt in H as [H|H]; auto.
  - apply Matches_Star_cons in H as (s1 & s2 & -> & H1 & H2).
    apply Matches_Cat. exists s1, s2. auto.
Qed.

Lemma test_Matches r s : test r s = true ↔ Matches r s.
Proof.
  unfold test. revert r. induction s as [|c s IH]; intros r; simpl.
  - split; auto using Matches_nil_nullable, nullable_Matches_nil.
  - rewrite IH. split; auto using deriv_sound, deriv_complete.
Qed.

(** The quantifiers of the two patterns, on a single character class. *)

Lemma Matches_Star_Cls p s :
  Matches (Star (Cls p)) s ↔ Forall (λ c, p c = true) s.
Proof.
  split.
  - induction s as [|c s IH]; intros H; [constructor|].
    apply Matches_Star_cons in H as (s1 & s2 & -> & H1 & H2).
    apply Matches_Cls in H1 as (c' & [= -> ->] & Hc). constructor; auto.
  - intros H. induction H as [|c t Hc _ IH]; [constructor|].
    change (c :: t) with ([c] ++ t). constructor; auto. by constructor.
Qed.

Lemma Matches_Plus_Cls p s :
  Matches (Plus (Cls p)) s ↔ s ≠ [] ∧ Forall (λ c, p c = true) s.
Proof.
  unfold Plus. rewrite Matches_Cat. split.
  - intros (s1 & s2 & -> & H1 & H2).
    apply Matches_Cls in H1 as (c & -> & Hc). apply Matches_Star_Cls in H2.
    split; [discriminate | constructor; auto].
  - intros [Hne H]. destruct s as [|c s]; [done|].
    apply Forall_cons in H as [Hc H]. exists [c], s. split; [done|].
    split; [by constructor | by apply Matches_Star_Cls].
Qed.

Lemma Matches_Opt_Cls p s :
  Matches (Opt (Cls p)) s ↔ s = [] ∨ ∃ c, s = [c] ∧ p c = true.
Proof.
  unfold Opt. rewrite Matches_Alt, Matches_Cls, Matches_Eps. tauto.
Qed.

Lemma Matches_Upto_Cls n p s :
  Matches (Upto n (Cls p)) s ↔
  (length s ≤ n)%nat ∧ Forall (λ c, p c = true) s.
Proof.
  revert s. induction n as [|n IH]; intros s; simpl.
  - rewrite Matches_Eps. split.
    + intros ->. split; [simpl; lia | constructor].
    + intros [Hl _]. destruct s; [done | simpl in Hl; lia].
  - unfold Opt. rewrite Matches_Alt, Matches_Cat, Matches_Eps. split.
    + intros [(s1 & s2 & -> & H1 & H2) | ->].
      * apply Matches_Cls in H1 as (c & -> & Hc). apply IH in H2 as [Hl HF].
        split; [simpl; lia | constructor; auto].
      * split; [simpl; lia | constructor].
    + intros [Hl HF]. destruct s as [|c s]; [by right|].
      left. apply Forall_cons in HF as [Hc HF]. exists [c], s.
      split; [done|]. split; [by constructor|].
      apply IH. simpl in Hl. split; [lia | done].
Qed.

End RegexFacts.

(** ** The two patterns against the specification's formats *)

Module FormatFacts.
Import Regex RegexFacts Validation FormatSpec.

Lemma not_space_at_spec c :
  not_space_at c = true ↔ is_space c = false ∧ c ≠ 64.
Proof.
  unfold not_space_at. rewrite negb_true_iff, orb_false_iff, N.eqb_neq. tauto.
Qed.

Lemma Forall_not_space_at s :
  Forall (λ c, not_space_at c = true) s ↔
  Forall (λ c, is_space c = false ∧ c ≠ 64) s.
Proof. apply Forall_proper; [intros c; apply not_space_at_spec | done]. Qed.

Lemma Matches_address_part s :
  Matches (Plus (Cls not_space_at)) s ↔ address_part s.
Proof.
  rewrite Matches_Plus_Cls. unfold address_part.
  by rewrite Forall_not_space_at.
Qed.

Lemma Matches_char (p : N → bool) (k : N) s :
  (∀ c, p c = true ↔ c = k) → Matches (Cls p) s ↔ s = [k].
Proof.
  intros Hp. rewrite Matches_Cls. split.
  - intros (c & -> & Hc). apply Hp in Hc. by subst.
  - intros ->. exists k. split; [done | by apply Hp].
Qed.

Lemma isValidEmail_spec s : isValidEmail s = true ↔ email_shape s.
Proof.
  unfold isValidEmail, emailRegex, email_shape. rewrite test_Matches.
  split.
  - intros (l & s1 & -> & Hl & H1)%Matches_Cat.
    apply Matches_Cat in H1 as (a & s2 & -> & Ha & H2).
    apply Matches_Cat in H2 as (dm & s3 & -> & Hd & H3).
    apply Matches_Cat in H3 as (dt & t & -> & Hdt & Ht).
    apply (Matches_char _ 64) in Ha as ->; [|intros c; apply N.eqb_eq].
    apply (Matches_char _ 46) in Hdt as ->; [|intros c; apply N.eqb_eq].
    exists l, dm, t. by rewrite <- !Matches_address_part.
  - intros (l & dm & t & -> & Hl & Hd & Ht).
    apply Matches_Cat. exists l, (lit "@" ++ dm ++ lit "." ++ t).
    split; [done|]. split; [by apply Matches_address_part|].
    apply Matches_Cat. exists (lit "@"), (dm ++ lit "." ++ t).
    split; [done|]. split; [by constructor|].
    apply Matches_Cat. exists dm, (lit "." ++ t).
    split; [done|]. split; [by apply Matches_address_part|].
    apply Matches_Cat. exists (lit "."), t.
    split; [done|]. split; [by constructor | by apply Matches_address_part].
Qed.

Lemma is_digit_spec c : is_digit c = true ↔ digit c.
Proof.
  unfold is_digit, digit. rewrite andb_true_iff, !N.leb_le. tauto.
Qed.

Lemma is_1_9_spec c : is_1_9 c = true ↔ digit c ∧ c ≠ 48.
Proof.
  unfold is_1_9, digit. rewrite andb_true_iff, !N.leb_le. lia.
Qed.

Lemma Matches_phoneRegex s : Matches phoneRegex s ↔ phone_shape s.
Proof.
  unfold phoneRegex, phone_shape. split.
  - intros (sg & s1 & -> & Hsg & H1)%Matches_Cat.
    apply Matches_Cat in H1 as (d1 & ds & -> & Hd1 & Hds).
    apply Matches_Cls in Hd1 as (d & -> & Hd). apply is_1_9_spec in Hd as [Hd Hnz].
    apply Matches_Upto_Cls in Hds as [Hlen Hds].
    exists sg, (d :: ds). split; [done|]. split.
    { apply Matches_Opt_Cls in Hsg as [-> | (c & -> & Hc)]; [by left|].
      apply N.eqb_eq in Hc as ->. by right. }
    split.
    { constructor; [done|].
      eapply Forall_impl; [exact Hds|]. intros c. apply is_digit_spec. }
    split; [eauto|]. simpl. lia.
  - intros (sg & ds & -> & Hsg & Hds & (d & rest & -> & Hnz) & Hlen).
    apply Forall_cons in Hds as [Hd Hrest].
    apply Matches_Cat. exists sg, (d :: rest). split; [done|]. split.
    { apply Matches_Opt_Cls. destruct Hsg as [-> | ->]; [by left|].
      right. by exists 43. }
    apply Matches_Cat. exists [d], rest. split; [done|]. split.
    { constructor. by apply is_1_9_spec. }
    apply Matches_Upto_Cls. simpl in Hlen. split; [lia|].
    eapply Forall_impl; [exact Hrest|]. intros c. apply is_digit_spec.
Qed.

Lemma isValidPhone_spec s :
  isValidPhone s = true ↔ phone_shape (strip_spaces s).
Proof. unfold isValidPhone. by rewrite test_Matches, Matches_phoneRegex. Qed.

End FormatFacts.

(** ** Single-field validation *)

Module ValidationFacts.
Import Regex Validation FormatSpec FormatFacts Outcome.

Lemma truthy_spec (s : jstr) : truthy s = true ↔ s ≠ [].
Proof. destruct s; simpl; split; congruence. Qed.

Lemma str_eqb_spec (a b : jstr) : str_eqb a b = true ↔ a = b.
Proof. unfold str_eqb. apply bool_decide_eq_true. Qed.

Lemma str_eqb_false (a b : jstr) : str_eqb a b = false ↔ a ≠ b.
Proof. unfold str_eqb. apply bool_decide_eq_false. Qed.

Lemma fields_clearFieldError i d f :
  fields d !! i = Some f →
  ∃ cl, fields (clearFieldError i d) = <[i := set_classList cl f]> (fields d).
Proof.
  intros Hf. unfold clearFieldError. rewrite Hf. eexists.
  destruct (errors_of _ _); reflexivity.
Qed.

Lemma lookup_clearFieldError i d f :
  fields d !! i = Some f →
  ∃ cl, fields (clearFieldError i d) !! i = Some (set_classList cl f).
Proof.
  intros Hf. destruct (fields_clearFieldError i d f Hf) as [cl ->].
  exists cl. apply list_lookup_insert_eq. by eapply lookup_lt_Some.
Qed.

Lemma shown_error_showFieldError i msg d f :
  fields d !! i = Some f → shown_error i (showFieldError i msg d) = Some msg.
Proof.
  intros Hf. unfold shown_error, showFieldError. rewrite Hf. simpl.
  rewrite list_lookup_insert_eq by (by eapply lookup_lt_Some). simpl.
  unfold errors_of at 1. simpl. rewrite lookup_insert_eq. simpl.
  by destruct (errors_of _ _).
Qed.

(** Changing the class list of a control does not change which input is
    found under the name [password1], nor its value. *)
Lemma find_insert_classList (P : field → bool) l i f cl :
  l !! i = Some f →
  (∀ g cl', P (set_classList cl' g) = P g) →
  value <$> find P (<[i := set_classList cl f]> l) = value <$> find P l.
Proof.
  intros Hf HP. revert i Hf. induction l as [|g l IH]; intros i Hf; [done|].
  destruct i as [|i]; simpl in *.
  - injection Hf as ->. rewrite HP. by destruct (P f).
  - destruct (P g); [done|]. by apply IH.
Qed.

Lemma query_password1_clearFieldError i d :
  value <$> query_password1 (clearFieldError i d)
  = value <$> query_password1 d.
Proof.
  unfold query_password1. destruct (fields d !! i) as [f|] eqn:Hf.
  - destruct (fields_clearFieldError i d f Hf) as [cl ->].
    by apply find_insert_classList.
  - unfold clearFieldError. by rewrite Hf.
Qed.

(** The call on a field whose trimmed value is not empty: the required
    check is passed over and the rules are tried in order. *)
Lemma validateField_nonempty i d f :
  fields d !! i = Some f →
  trim (value f) ≠ [] →
  validateField i d =
    let v := trim (value f) in
    let d1 := clearFieldError i d in
    if str_eqb (type f) (lit "email") && negb (isValidEmail v) then
      Some (false, showFieldError i msg_email d1)
    else if str_eqb (type f) (lit "password")
            && str_eqb (name f) (lit "password1")
            && (length v <? 8)%nat then
      Some (false, showFieldError i msg_password d1)
    else if str_eqb (type f) (lit "tel") && negb (isValidPhone v) then
      Some (false, showFieldError i msg_phone d1)
    else confirmation_rule i d1 f v.
Proof.
  intros Hf Hv. unfold validateField, confirmation_rule. rewrite Hf.
  apply truthy_spec in Hv. rewrite Hv. simpl. by rewrite andb_false_r.
Qed.

Lemma rejected_with_intro msg i d d1 f :
  fields d1 !! i = Some f →
  validateField i d = Some (false, showFieldError i msg d1) →
  rejected_with msg i d.
Proof.
  intros Hf Hv. eexists. split; [exact Hv|].
  by eapply shown_error_showFieldError.
Qed.

Lemma rejected_with_message msg msg' i d d1 f :
  fields d1 !! i = Some f →
  validateField i d = Some (false, showFieldError i msg d1) →
  rejected_with msg' i d → msg' = msg.
Proof.
  intros Hf Hv (d' & Hd' & Hs). rewrite Hv in Hd'. injection Hd' as <-.
  erewrite shown_error_showFieldError in Hs by done. congruence.
Qed.

Lemma confirmation_stage i d f :
  fields d !! i = Some f →
  let v := trim (value f) in
  let d1 := clearFieldError i d in
  (confirmation_passes d f v ∧ confirmation_rule i d1 f v = Some (true, d1))
  ∨ (¬ confirmation_passes d f v ∧
     confirmation_rule i d1 f v
     = Some (false, showFieldError i msg_mismatch d1)).
Proof.
  intros Hf v d1. unfold confirmation_passes, confirmation_rule.
  pose proof (query_password1_clearFieldError i d) as Hq. fold d1 in Hq.
  destruct (str_eqb (name f) (lit "password2")) eqn:Hn.
  - apply str_eqb_spec in Hn.
    destruct (query_password1 d1) as [p1|] eqn:Hq1;
      destruct (query_password1 d) as [p|] eqn:Hq0; try discriminate.
    + simpl in Hq. injection Hq as Hq.
      destruct (str_eqb v (value p1)) eqn:He; simpl.
      * apply str_eqb_spec in He. left. split; [|done].
        intros _ p' [= <-]. congruence.
      * apply str_eqb_false in He. right. split; [|done].
        intros H. apply He. rewrite Hq. by apply H.
    + left. split; [|done]. intros _ p' [=].
  - apply str_eqb_false in Hn. left. split; [|done]. intros H. done.
Qed.

Lemma strip_spaces_trimStart s : strip_spaces (trimStart s) = strip_spaces s.
Proof.
  unfold strip_spaces. induction s as [|c s IH]; [done|]. simpl.
  destruct (is_space c) eqn:Hc.
  - rewrite IH. rewrite filter_cons_False; [done | congruence].
  - done.
Qed.

Lemma strip_spaces_rev s : strip_spaces (rev s) = rev (strip_spaces s).
Proof.
  unfold strip_spaces. induction s as [|c s IH]; [done|]. simpl.
  rewrite filter_app, IH, !filter_cons, filter_nil.
  destruct (decide (is_space c = false)); simpl; [done|].
  by rewrite app_nil_r.
Qed.

Lemma strip_spaces_trim s : strip_spaces (trim s) = strip_spaces s.
Proof.
  unfold trim, trimEnd.
  by rewrite strip_spaces_rev, strip_spaces_trimStart, strip_spaces_rev,
    rev_involutive, strip_spaces_trimStart.
Qed.

(** C5: for a field of type [tel] whose (trimmed) value is not empty,
    single-field validation rejects the value with the phone message exactly
    when the value, all whitespace stripped, is not an optional [+] followed
    by at most 16 digits of which the first is not zero; otherwise the phone
    rule lets it through, and the field is accepted (a field that is also
    the [password2] confirmation field has that rule to pass as well). *)
Theorem validateField_tel i d f :
  fields d !! i = Some f →
  type f = lit "tel" →
  trim (value f) ≠ [] →
  (rejected_with msg_phone i d ↔ ¬ phone_shape (strip_spaces (value f)))
  ∧ (accepted i d ↔
     phone_shape (strip_spaces (value f))
     ∧ confirmation_passes d f (trim (value f)))
  ∧ (name f ≠ lit "password2" →
     (accepted i d ↔ phone_shape (strip_spaces (value f)))).
Proof.
  intros Hf Hty Hv.
  pose proof (validateField_nonempty i d f Hf Hv) as Hval. simpl in Hval.
  rewrite Hty in Hval.
  change (str_eqb (lit "tel") (lit "email")) with false in Hval.
  change (str_eqb (lit "tel") (lit "password")) with false in Hval.
  change (str_eqb (lit "tel") (lit "tel")) with true in Hval.
  simpl in Hval.
  destruct (lookup_clearFieldError i d f Hf) as [cl Hf1].
  rewrite <- (strip_spaces_trim (value f)), <- isValidPhone_spec.
  destruct (isValidPhone (trim (value f))) eqn:Hp; simpl in Hval.
  - destruct (confirmation_stage i d f Hf) as [[Hc Hr] | [Hc Hr]];
      simpl in Hr; rewrite Hr in Hval.
    + assert (accepted i d) as Hacc by (eexists; exact Hval).
      split; [|split].
      * split; [|by intros []]. intros (d' & Hd' & _). congruence.
      * tauto.
      * tauto.
    + assert (¬ accepted i d) as Hacc.
      { intros [d' Hd']. congruence. }
      split; [|split].
      * split; [|by intros []]. intros Hrej.
        by apply (rejected_with_message _ _ _ _ _ _ Hf1 Hval) in Hrej.
      * tauto.
      * intros Hn. exfalso. apply Hc. intros Hn'. done.
  - assert (rejected_with msg_phone i d) as Hrej
      by (eapply rejected_with_intro; eauto).
    assert (¬ accepted i d) as Hacc.
    { intros [d' Hd']. congruence. }
    split; [|split].
    + split; [by intros _ | done].
    + split; [done | by intros [[=] _]].
    + intros _. split; [done | by intros [=]].
Qed.

Lemma validateField_tel_witness :
  accepted 0 (Samples.one_field (lit "tel") (lit "phone")
                                (lit " +234 803 555 0199 ") true).
Proof.
  assert (trim (lit " +234 803 555 0199 ") ≠ []) as Hne by (by vm_compute).
  destruct (validateField_tel 0
              (Samples.one_field (lit "tel") (lit "phone")
                                 (lit " +234 803 555 0199 ") true)
              (Samples.input (lit "tel") (lit "phone")
                             (lit " +234 803 555 0199 ") true 0)
              eq_refl eq_refl Hne) as (_ & Hacc & _).
  apply Hacc. split; [|by vm_compute].
  apply isValidPhone_spec. by vm_compute.
Defined.

(** C6: for a field of type [email] whose (trimmed) value is not empty,
    single-field validation rejects the value with the email-format message
    exactly when it is not of the shape local@domain.tld, and otherwise lets
    it through; [a@b.co] is accepted and [not-an-email] is rejected with
    that message. *)
Theorem validateField_email i d f :
  fields d !! i = Some f →
  type f = lit "email" →
  (trim (value f) ≠ [] →
   (rejected_with msg_email i d ↔ ¬ email_shape (trim (value f)))
   ∧ (accepted i d ↔
      email_shape (trim (value f))
      ∧ confirmation_passes d f (trim (value f)))
   ∧ (name f ≠ lit "password2" →
      (accepted i d ↔ email_shape (trim (value f)))))
  ∧ (value f = lit "a@b.co" → name f ≠ lit "password2" → accepted i d)
  ∧ (value f = lit "not-an-email" → rejected_with msg_email i d).
Proof.
  intros Hf Hty.
  assert (trim (value f) ≠ [] →
   (rejected_with msg_email i d ↔ ¬ email_shape (trim (value f)))
   ∧ (accepted i d ↔
      email_shape (trim (value f))
      ∧ confirmation_passes d f (trim (value f)))
   ∧ (name f ≠ lit "password2" →
      (accepted i d ↔ email_shape (trim (value f))))) as Hgen.
  { intros Hv.
    pose proof (validateField_nonempty i d f Hf Hv) as Hval. simpl in Hval.
    rewrite Hty in Hval.
    change (str_eqb (lit "email") (lit "email")) with true in Hval.
    change (str_eqb (lit "email") (lit "password")) with false in Hval.
    change (str_eqb (lit "email") (lit "tel")) with false in Hval.
    simpl in Hval.
    destruct (lookup_clearFieldError i d f Hf) as [cl Hf1].
    rewrite <- isValidEmail_spec.
    destruct (isValidEmail (trim (value f))) eqn:Hp; simpl in Hval.
    - destruct (confirmation_stage i d f Hf) as [[Hc Hr] | [Hc Hr]];
        simpl in Hr; rewrite Hr in Hval.
      + assert (accepted i d) as Hacc by (eexists; exact Hval).
        split; [|split].
        * split; [|by intros []]. intros (d' & Hd' & _). congruence.
        * tauto.
        * tauto.
      + assert (¬ accepted i d) as Hacc.
        { intros [d' Hd']. congruence. }
        split; [|split].
        * split; [|by intros []]. intros Hrej.
          by apply (rejected_with_message _ _ _ _ _ _ Hf1 Hval) in Hrej.
        * tauto.
        * intros Hn. exfalso. apply Hc. intros Hn'. done.
    - assert (rejected_with msg_email i d) as Hrej
        by (eapply rejected_with_intro; eauto).
      assert (¬ accepted i d) as Hacc.
      { intros [d' Hd']. congruence. }
      split; [|split].
      + split; [by intros _ | done].
      + split; [done | by intros [[=] _]].
      + intros _. split; [done | by intros [=]]. }
  split; [exact Hgen|]. split.
  - intros Hv Hn. assert (trim (value f) = lit "a@b.co") as Ht
      by (by rewrite Hv).
    apply Hgen; [by rewrite Ht | done |].
    rewrite Ht. apply isValidEmail_spec. by vm_compute.
  - intros Hv. assert (trim (value f) = lit "not-an-email") as Ht
      by (by rewrite Hv).
    apply Hgen; [by rewrite Ht|].
    rewrite Ht, <- isValidEmail_spec. by vm_compute.
Qed.

Lemma validateField_email_witness :
  accepted 0 (Samples.one_field (lit "email") (lit "email")
                                (lit "a@b.co") true)
  ∧ rejected_with msg_email 0
      (Samples.one_field (lit "email") (lit "email")
                         (lit "not-an-email") true).
Proof.
  split.
  - destruct (validateField_email 0
                (Samples.one_field (lit "email") (lit "email")
                                   (lit "a@b.co") true)
                (Samples.input (lit "email") (lit "email")
                               (lit "a@b.co") true 0)
                eq_refl eq_refl) as (_ & Hok & _).
    by apply Hok.
  - destruct (validateField_email 0
                (Samples.one_field (lit "email") (lit "email")
                                   (lit "not-an-email") true)
                (Samples.input (lit "email") (lit "email")
                               (lit "not-an-email") true 0)
                eq_refl eq_refl) as (_ & _ & Hbad).
    by apply Hbad.
Defined.

Lemma validateField_type_rule_passes i d f :
  fields d !! i = Some f →
  trim (value f) ≠ [] →
  type_rule_passes f (trim (value f)) →
  validateField i d
  = confirmation_rule i (clearFieldError i d) f (trim (value f)).
Proof.
  intros Hf Hv (Hemail & Hpw & Htel).
  rewrite (validateField_nonempty i d f Hf Hv). simpl.
  destruct (str_eqb (type f) (lit "email")) eqn:He; simpl.
  { apply str_eqb_spec in He. rewrite (Hemail He). simpl. rewrite He.
    change (str_eqb (lit "email") (lit "password")) with false.
    by change (str_eqb (lit "email") (lit "tel")) with false. }
  destruct (str_eqb (type f) (lit "tel")) eqn:Ht; simpl.
  { apply str_eqb_spec in Ht. rewrite (Htel Ht). simpl. rewrite Ht.
    by change (str_eqb (lit "tel") (lit "password")) with false. }
  destruct (str_eqb (type f) (lit "password")) eqn:Hp; simpl; [|done].
  destruct (str_eqb (name f) (lit "password1")) eqn:Hn; simpl; [|done].
  apply str_eqb_spec in Hp, Hn. specialize (Hpw Hp Hn).
  by apply Nat.ltb_ge in Hpw as ->.
Qed.

(** C2, as the script has it, for a field named exactly [password2].  If
    its trimmed value is empty, it is not compared at all: the mismatch
    message is never shown, and a field that is not required is accepted.
    If its trimmed value is not empty and passes the rule of its type, then
    when the document has an input named [password1] whose current value
    carries no whitespace at either end, validation fails with "Passwords
    do not match" if the two values, trimmed, differ, and passes if they
    are equal. *)
Theorem validateField_password2 i d f :
  fields d !! i = Some f →
  name f = lit "password2" →
  (trim (value f) = [] →
   ¬ rejected_with msg_mismatch i d ∧ (required f = false → accepted i d))
  ∧ (trim (value f) ≠ [] →
     type_rule_passes f (trim (value f)) →
     ∀ password1,
       query_password1 d = Some password1 →
       trim (value password1) = value password1 →
       (trim (value f) ≠ trim (value password1) →
        rejected_with msg_mismatch i d)
       ∧ (trim (value f) = trim (value password1) → accepted i d)).
Proof.
  intros Hf Hn. destruct (lookup_clearFieldError i d f Hf) as [cl Hf1]. split.
  - intros Hv.
    assert (validateField i d
            = if required f
              then Some (false, showFieldError i msg_required
                                  (clearFieldError i d))
              else Some (true, clearFieldError i d)) as Hval.
    { unfold validateField. rewrite Hf. simpl. rewrite Hv. simpl.
      by destruct (required f). }
    destruct (required f); split.
    + intros Hrej.
      by apply (rejected_with_message _ _ _ _ _ _ Hf1 Hval) in Hrej.
    + done.
    + intros (d' & Hd' & _). congruence.
    + intros _. eexists. exact Hval.
  - intros Hv Hty password1 Hq Hp1. rewrite Hp1.
    pose proof (validateField_type_rule_passes i d f Hf Hv Hty) as Hval.
    destruct (confirmation_stage i d f Hf) as [[Hc Hr] | [Hc Hr]];
      simpl in Hr; rewrite Hr in Hval.
    + split.
      * intros Hne. destruct Hne. by apply Hc.
      * intros _. eexists. exact Hval.
    + split.
      * intros _. eapply rejected_with_intro; eauto.
      * intros Heq. destruct Hc. intros _ p1 Hp1'. congruence.
Qed.

(** The two cases of the specification: [password1] holds [abc12345]; a
    [password2] of [abc12345] passes, one of [different] fails with the
    message. *)
Lemma validateField_password2_witness :
  accepted 1 (Samples.signup (lit "abc12345") (lit "abc12345") true)
  ∧ rejected_with msg_mismatch 1
      (Samples.signup (lit "abc12345") (lit "different") true).
Proof.
  split.
  - refine (proj2 (proj2 (validateField_password2 1
              (Samples.signup (lit "abc12345") (lit "abc12345") true)
              (Samples.input (lit "password") (lit "password2")
                             (lit "abc12345") true 1)
              eq_refl eq_refl) _ _
              (Samples.input (lit "password") (lit "password1")
                             (lit "abc12345") true 0)
              eq_refl _) _).
    + by vm_compute.
    + repeat split; by vm_compute.
    + by vm_compute.
    + by vm_compute.
  - refine (proj1 (proj2 (validateField_password2 1
              (Samples.signup (lit "abc12345") (lit "different") true)
              (Samples.input (lit "password") (lit "password2")
                             (lit "different") true 1)
              eq_refl eq_refl) _ _
              (Samples.input (lit "password") (lit "password1")
                             (lit "abc12345") true 0)
              eq_refl _) _).
    + by vm_compute.
    + repeat split; by vm_compute.
    + by vm_compute.
    + by vm_compute.
Defined.

(** C2 as stated fails on the script.  A [password2] left empty and not
    marked required is accepted although [password1] holds [abc12345]; left
    empty and required, it is rejected with the "required" message, not the
    mismatch one. *)
Lemma password2_differs_yet_accepted :
  (value (Samples.input (lit "password") (lit "password2") [] false 1)
   ≠ value (Samples.input (lit "password") (lit "password1")
                          (lit "abc12345") true 0)
   ∧ query_password1 (Samples.signup (lit "abc12345") [] false)
     = Some (Samples.input (lit "password") (lit "password1")
                           (lit "abc12345") true 0)
   ∧ accepted 1 (Samples.signup (lit "abc12345") [] false))
  ∧ rejected_with msg_required 1 (Samples.signup (lit "abc12345") [] true).
Proof.
  split; [split; [by vm_compute | split; [done|]] |].
  - eexists. by vm_compute.
  - eexists. split; by vm_compute.
Qed.

End ValidationFacts.

(** ** Loading state *)

Module LoadingFacts.
Import Loading.

(** With content to restore, the round trip gives the content back, takes
    the stash away again and leaves the element enabled. *)
Lemma hideLoading_showLoading element :
  innerHTML element ≠ [] →
  hideLoading (showLoading element)
  = Element (innerHTML element)
            (delete "originalContent"%string (dataset element)) false.
Proof.
  intros Hne. unfold hideLoading, showLoading. simpl.
  rewrite lookup_insert_eq.
  destruct (innerHTML element) as [|c s] eqn:Hc; [done|]. simpl.
  by rewrite delete_insert_eq.
Qed.

(** Without a stash, [hideLoading] leaves markup and attributes alone. *)
Lemma hideLoading_no_stash element :
  dataset element !! "originalContent"%string = None →
  hideLoading element = Element (innerHTML element) (dataset element) false.
Proof. intros H. unfold hideLoading. by rewrite H. Qed.

(** A second [hideLoading] after the round trip changes nothing. *)
Lemma hideLoading_twice element :
  innerHTML element ≠ [] →
  hideLoading (hideLoading (showLoading element))
  = hideLoading (showLoading element).
Proof.
  intros Hne. rewrite hideLoading_showLoading by done.
  rewrite hideLoading_no_stash; [done|]. simpl. apply lookup_delete_eq.
Qed.

(** C3, at an element with no content: [showLoading] stashes the empty
    string, and [hideLoading], which tests the stash for truthiness, takes
    it for no stash at all; the element keeps the spinner and the stash. *)
Theorem hideLoading_showLoading_empty (data : gmap string jstr) (dis : bool) :
  hideLoading (showLoading (Element [] data dis))
  = Element spinner (<["originalContent"%string := []]> data) false
  ∧ innerHTML (hideLoading (showLoading (Element [] data dis)))
    ≠ innerHTML (Element [] data dis).
Proof.
  unfold hideLoading, showLoading. simpl. rewrite lookup_insert_eq. simpl.
  split; [done | by vm_compute].
Qed.

(** C10: [hideLoading] always leaves [disabled] false; the markup is
    restored and the stash cleared when a stash is present and not empty,
    and both are left as they are otherwise. *)
Theorem hideLoading_effect element :
  disabled (hideLoading element) = false
  ∧ (∀ content,
       dataset element !! "originalContent"%string = Some content →
       content ≠ [] →
       innerHTML (hideLoading element) = content
       ∧ dataset (hideLoading element)
         = delete "originalContent"%string (dataset element))
  ∧ (dataset element !! "originalContent"%string = None
     ∨ dataset element !! "originalContent"%string = Some [] →
     innerHTML (hideLoading element) = innerHTML element
     ∧ dataset (hideLoading element) = dataset element).
Proof.
  unfold hideLoading.
  destruct (dataset element !! "originalContent"%string) as [c|] eqn:Hc.
  - destruct c as [|x c]; simpl.
    + split; [done|]. split; [by intros ? [= <-] | done].
    + split; [done|]. split; [by intros ? [= <-] | by intros [|]].
  - simpl. split; [done|]. split; [by intros | done].
Qed.

Lemma hideLoading_effect_witness :
  innerHTML (hideLoading (Element spinner
               {["originalContent"%string := lit "Save"]} true))
  = lit "Save"
  ∧ innerHTML (hideLoading (Element (lit "Save") ∅ true)) = lit "Save".
Proof.
  split.
  - by apply (hideLoading_effect
                (Element spinner {["originalContent"%string := lit "Save"]}
                         true)).
  - apply (hideLoading_effect (Element (lit "Save") ∅ true)). by left.
Defined.

End LoadingFacts.

(** ** Dropdown menus *)

Module DropdownFacts.
Import Dropdown.

Lemma is_open_remove c : is_open (classList_remove "active" c) = false.
Proof.
  unfold is_open, classList_remove. simpl.
  apply bool_decide_eq_false. rewrite elem_of_difference, elem_of_singleton.
  by intros [_ []].
Qed.

Lemma is_open_toggle c :
  is_open (classList_toggle "active" c) = negb (is_open c).
Proof.
  unfold is_open, classList_toggle. simpl.
  destruct (bool_decide ("active"%string ∈ classList c)) eqn:H; simpl.
  - apply bool_decide_eq_false. rewrite elem_of_difference, elem_of_singleton.
    by intros [_ []].
  - apply bool_decide_eq_true. rewrite elem_of_union, elem_of_singleton.
    by right.
Qed.

Lemma open_at_document_listener j dropdowns :
  open_at j (document_listener dropdowns) = false.
Proof.
  unfold open_at, document_listener. rewrite list_lookup_fmap.
  destruct (dropdowns !! j); simpl; [apply is_open_remove | done].
Qed.

Lemma open_at_trigger_listener_ne i j dropdowns :
  j ≠ i → open_at j (trigger_listener i dropdowns) = false.
Proof.
  intros Hne. unfold open_at, trigger_listener.
  rewrite list_lookup_alter_ne by done. rewrite list_lookup_imap.
  destruct (dropdowns !! j); simpl; [|done].
  rewrite bool_decide_eq_true_2 by done. apply is_open_remove.
Qed.

Lemma open_at_trigger_listener_eq i dropdowns c :
  dropdowns !! i = Some c →
  open_at i (trigger_listener i dropdowns) = negb (open_at i dropdowns).
Proof.
  intros Hc. unfold open_at, trigger_listener.
  rewrite list_lookup_alter_eq, list_lookup_imap, Hc. simpl.
  rewrite bool_decide_eq_false_2 by (intros H; by apply H).
  apply is_open_toggle.
Qed.

(** Whatever the state before, a click leaves at most one dropdown open. *)
Lemma at_most_one_open_dispatch e dropdowns :
  at_most_one_open (dispatch e dropdowns).
Proof.
  assert (at_most_one_open (document_listener dropdowns)) as Hdoc.
  { intros j k Hj _. by rewrite open_at_document_listener in Hj. }
  destruct e as [i|]; simpl; [|done].
  destruct (dropdowns !! i) as [c|]; [|done].
  destruct (wired c); [|done].
  intros j k Hj Hk.
  destruct (decide (j = i)) as [->|Hji];
    [|by rewrite open_at_trigger_listener_ne in Hj].
  destruct (decide (k = i)) as [->|Hki];
    [done | by rewrite open_at_trigger_listener_ne in Hk].
Qed.

(** C8: with A and B two dropdowns, a click on the trigger of A closes B
    and every other dropdown, and toggles A; so opening A (A was closed,
    as it is whenever B is open and the at-most-one convention holds) while
    B is open leaves B closed and A open.  After any click at most one
    dropdown is open, and after a click that no trigger intercepts none
    is. *)
Theorem dropdown_clicks dropdowns A B a :
  dropdowns !! A = Some a →
  wired a = true →
  A ≠ B →
  open_at B (dispatch (Trigger A) dropdowns) = false
  ∧ open_at A (dispatch (Trigger A) dropdowns) = negb (open_at A dropdowns)
  ∧ (open_at B dropdowns = true → at_most_one_open dropdowns →
     open_at B (dispatch (Trigger A) dropdowns) = false
     ∧ open_at A (dispatch (Trigger A) dropdowns) = true)
  ∧ (∀ e, at_most_one_open (dispatch e dropdowns))
  ∧ (∀ j, open_at j (dispatch Elsewhere dropdowns) = false).
Proof.
  intros Ha Hw Hne. simpl. rewrite Ha, Hw.
  assert (open_at B (trigger_listener A dropdowns) = false) as HB
    by (by apply open_at_trigger_listener_ne).
  split; [done|]. split; [by eapply open_at_trigger_listener_eq|].
  split; [|split].
  - intros HBopen Hconv. split; [done|].
    rewrite (open_at_trigger_listener_eq _ _ _ Ha).
    destruct (open_at A dropdowns) eqn:HA; [|done].
    destruct Hne. by apply Hconv.
  - intros e. apply at_most_one_open_dispatch.
  - intros j. apply open_at_document_listener.
Qed.

Lemma dropdown_clicks_witness :
  open_at 1 (dispatch (Trigger 0)
               [Container true true ∅; Container true true {["active"%string]}])
  = false
  ∧ open_at 0 (dispatch (Trigger 0)
               [Container true true ∅; Container true true {["active"%string]}])
    = true.
Proof.
  refine (proj1 (proj2 (proj2 (dropdown_clicks
            [Container true true ∅; Container true true {["active"%string]}]
            0%nat 1%nat (Container true true ∅) eq_refl eq_refl _))) eq_refl _).
  - lia.
  - intros [|[|j]] [|[|k]]; by vm_compute.
Defined.

End DropdownFacts.

(** ** Timers *)

Module TimersFacts.
Import Timers.
Local Open Scope nat_scope.

Lemma unset_singleton_eq {Cb} h d (cb : Cb) : unset h [Timer h d cb] = [].
Proof.
  unfold unset. rewrite filter_cons_False; [done|]. simpl. by intros H.
Qed.

End TimersFacts.

(** ** Debounce *)

Module DebounceFacts.
Import Timers TimersFacts Debounce.
Local Open Scope nat_scope.

Section Facts.
Context {A Env : Type}.
Variable func : list A → Env → Env.
Variable wait : nat.





End Facts.



End DebounceFacts.

(** ** Toasts *)

Module ToastFacts.
Import Timers TimersFacts Page.
Local Open Scope nat_scope.

Lemma remove_detached el p : parent_of el p = None → remove el p = p.
Proof. intros H. unfold remove. by rewrite H. Qed.

Lemma auto_remove_detached toast p :
  parent_of toast p = None → auto_remove toast p = Normal p.
Proof. intros H. unfold auto_remove. by rewrite H. Qed.

Lemma parent_of_remove el p : parent_of el (remove el p) = None.
Proof.
  unfold remove. destruct (parent_of el p) as [parent|] eqn:Hp; [|done].
  unfold parent_of in *. simpl. rewrite lookup_alter_eq.
  by destruct (alter _ parent (nodes p) !! el).
Qed.

Lemma body_lt_next_node p : page_ok p → body < next_node p.
Proof.
  intros [[b Hb] Hfresh]. destruct (decide (body < next_node p)); [done|].
  rewrite Hfresh in Hb by lia. done.
Qed.

(** The elements of a toast just shown: the toast under [document.body],
    the wrapper under the toast, the dismiss control under the wrapper. *)
Lemma showToast_parents message type duration p :
  page_ok p →
  parent_of (next_node p) (showToast message type duration p) = Some body
  ∧ parent_of (S (next_node p)) (showToast message type duration p)
    = Some (next_node p)
  ∧ parent_of (S (S (next_node p))) (showToast message type duration p)
    = Some (S (next_node p)).
Proof.
  intros Hok. pose proof (body_lt_next_node p Hok) as Hlt.
  unfold showToast, parent_of, appendChild, set_toast_markup. simpl.
  split; [|split].
  - rewrite lookup_alter_eq, lookup_alter_ne by lia.
    rewrite !lookup_insert_ne by lia.
    by rewrite !lookup_alter_eq, lookup_insert_eq.
  - rewrite !lookup_alter_ne by lia.
    by rewrite lookup_insert_ne, lookup_insert_eq by lia.
  - rewrite !lookup_alter_ne by lia. by rewrite lookup_insert_eq.
Qed.

Lemma showToast_timers message type duration p :
  timers (showToast message type duration p)
  = Queue (now (timers p))
          (pending (timers p)
           ++ [Timer (next_id (timers p)) (now (timers p) + duration)
                     (AutoRemove (next_node p))])
          (S (next_id (timers p))).
Proof. reflexivity. Qed.

(** C4: a toast is shown and then dismissed by its control.  The click ends
    normally and detaches the toast; when the timer of the toast fires
    afterwards, its callback ends normally and leaves the page as it is, and
    so does the event loop with the elements of the page.  The same holds
    for any page in which the toast is detached. *)
Theorem auto_remove_after_dismiss message type duration p :
  page_ok p →
  (∃ p2,
     dismiss_click (S (S (next_node p))) (showToast message type duration p)
     = Normal p2
     ∧ parent_of (next_node p) p2 = None
     ∧ In (Timer (next_id (timers p)) (now (timers p) + duration)
                 (AutoRemove (next_node p)))
          (pending (timers p2))
     ∧ auto_remove (next_node p) p2 = Normal p2
     ∧ nodes (fire timers with_timers run
                (Timer (next_id (timers p)) (now (timers p) + duration)
                       (AutoRemove (next_node p))) p2)
       = nodes p2)
  ∧ (∀ toast p', parent_of toast p' = None →
       auto_remove toast p' = Normal p' ∧ remove toast p' = p').
Proof.
  intros Hok. split.
  - destruct (showToast_parents message type duration p Hok)
      as (Ht & Hw & Hb).
    exists (remove (next_node p) (showToast message type duration p)).
    assert (parent_of (next_node p)
              (remove (next_node p) (showToast message type duration p))
            = None) as Hgone by apply parent_of_remove.
    split; [|split; [done|split; [|split]]].
    + unfold dismiss_click. by rewrite Hb, Hw.
    + unfold remove. rewrite Ht. simpl. apply in_app_iff. right. by left.
    + by apply auto_remove_detached.
    + unfold fire, run. simpl. unfold auto_remove.
      unfold parent_of in *. simpl. by rewrite Hgone.
  - intros toast p' H. split;
      [by apply auto_remove_detached | by apply remove_detached].
Qed.

Lemma auto_remove_after_dismiss_witness :
  ∃ p2,
    dismiss_click 3
      (showToast (lit "Saved") (lit "success") 3000
         (Page {[body := Node None [] [] [] None [] None]} 1 (idle 0) []))
    = Normal p2
    ∧ auto_remove 1 p2 = Normal p2.
Proof.
  assert (page_ok (Page {[body := Node None [] [] [] None [] None]} 1
                        (idle 0) [])) as Hok.
  { split; [by eexists|]. intros k Hk. simpl in *.
    apply lookup_singleton_ne. unfold body. lia. }
  destruct (auto_remove_after_dismiss (lit "Saved") (lit "success") 3000
              _ Hok) as [(p2 & Hclick & _ & _ & Htimer & _) _].
  exists p2. by split.
Defined.

End ToastFacts.

(** ** The event loop *)

Module LoopFacts.
Import Timers.
Local Open Scope nat_scope.

Section Queue.
Context {Cb : Type}.
Implicit Types (x y : timer Cb) (l : list (timer Cb)) (q : queue Cb).

Lemma earliest_None l : earliest l = None → l = [].
Proof.
  destruct l as [|x r]; [done|]. simpl.
  destruct (earliest r) as [y|]; [|done]. by destruct (due y <? due x).
Qed.

Lemma earliest_elem_of l x : earliest l = Some x → x ∈ l.
Proof.
  revert x. induction l as [|z r IH]; intros x; [done|]. simpl.
  destruct (earliest r) as [y|].
  - destruct (due y <? due z); intros [= <-]; [|by left].
    right. by apply IH.
  - intros [= <-]. by left.
Qed.

Lemma earliest_le l x y : earliest l = Some x → y ∈ l → due x ≤ due y.
Proof.
  revert x. induction l as [|z r IH]; intros x; [done|]. simpl.
  intros Hx Hy. destruct (earliest r) as [e|] eqn:He.
  - specialize (IH e eq_refl).
    destruct (due e <? due z) eqn:Hlt; injection Hx as <-.
    + apply Nat.ltb_lt in Hlt. apply elem_of_cons in Hy as [->|Hy]; [lia|auto].
    + apply Nat.ltb_ge in Hlt.
      apply elem_of_cons in Hy as [->|Hy]; [lia|]. specialize (IH Hy). lia.
  - injection Hx as <-. apply earliest_None in He. subst r.
    apply elem_of_cons in Hy as [->|Hy]; [lia|]. by apply elem_of_nil in Hy.
Qed.

Lemma next_due_Some t q x :
  next_due t q = Some x → x ∈ pending q ∧ due x ≤ t.
Proof.
  unfold next_due. destruct (earliest (pending q)) as [e|] eqn:He; [|done].
  destruct (due e <=? t) eqn:Hle; [|done]. intros [= <-].
  apply Nat.leb_le in Hle. split; [by apply earliest_elem_of | done].
Qed.

Lemma next_due_None t q y : next_due t q = None → y ∈ pending q → t < due y.
Proof.
  unfold next_due. destruct (earliest (pending q)) as [e|] eqn:He.
  - destruct (due e <=? t) eqn:Hle; [done|]. intros _ Hy.
    apply Nat.leb_gt in Hle. pose proof (earliest_le _ _ _ He Hy). lia.
  - intros _ Hy. apply earliest_None in He. rewrite He in Hy.
    by apply elem_of_nil in Hy.
Qed.

Lemma elem_of_unset h l y : y ∈ unset h l ↔ id y ≠ h ∧ y ∈ l.
Proof. unfold unset. by rewrite list_elem_of_filter. Qed.

Lemma length_unset_lt l x : x ∈ l → length (unset (id x) l) < length l.
Proof.
  unfold unset. induction l as [|z r IH]; intros Hx.
  - by apply elem_of_nil in Hx.
  - rewrite filter_cons. pose proof (length_filter (λ y, id y ≠ id x) r).
    destruct (decide (id z ≠ id x)) as [Hne|Heq]; simpl; [|lia].
    apply elem_of_cons in Hx as [->|Hx]; [done|]. specialize (IH Hx). lia.
Qed.

End Queue.

Section Loop.
Context {Cb W : Type}.
Variable queue_of : W → queue Cb.
Variable with_queue : queue Cb → W → W.
Variable run : Cb → W → W.

(** The callbacks leave the queue alone. *)
Hypothesis pending_fire : ∀ x w,
  pending (queue_of (fire queue_of with_queue run x w))
  = unset (id x) (pending (queue_of w)).

Lemma fire_due_invariant (P : W → Prop) fuel t w :
  (∀ w x, P w → next_due t (queue_of w) = Some x →
          P (fire queue_of with_queue run x w)) →
  P w → P (fire_due queue_of with_queue run fuel t w).
Proof.
  intros Hstep. revert w. induction fuel as [|fuel IH]; intros w Hw; [done|].
  simpl. destruct (next_due t (queue_of w)) as [x|] eqn:Hx; [|done].
  apply IH. by apply Hstep.
Qed.

(** With as much fuel as there are pending timers, no timer due by [t] is
    left. *)
Lemma fire_due_done fuel t w :
  length (pending (queue_of w)) ≤ fuel →
  next_due t (queue_of (fire_due queue_of with_queue run fuel t w)) = None.
Proof.
  revert w. induction fuel as [|fuel IH]; intros w Hlen; simpl.
  - destruct (pending (queue_of w)) as [|x r] eqn:Hp; [|simpl in Hlen; lia].
    unfold next_due. by rewrite Hp.
  - destruct (next_due t (queue_of w)) as [x|] eqn:Hx; [|done].
    apply IH. rewrite pending_fire.
    apply next_due_Some in Hx as [Hx _].
    pose proof (length_unset_lt _ _ Hx). lia.
Qed.

End Loop.

End LoopFacts.

(** ** Copy controls *)

Module CopyFacts.
Import Timers LoopFacts Page ToastFacts.
Local Open Scope nat_scope.

Lemma timers_run cb p : timers (run cb p) = timers p.
Proof.
  destruct cb as [toast|this html]; unfold run; simpl; [|done].
  unfold auto_remove, remove. by destruct (parent_of toast p).
Qed.

Lemma pending_fire x p :
  pending (timers (fire timers with_timers run x p))
  = unset (id x) (pending (timers p)).
Proof. unfold fire. by rewrite timers_run. Qed.

Lemma lookup_alter_innerHTML (f : node → node) k el (ns : gmap nat node) :
  (∀ n, innerHTML (f n) = innerHTML n) →
  innerHTML <$> alter f k ns !! el = innerHTML <$> ns !! el.
Proof.
  intros Hf. rewrite lookup_alter. case_decide; [subst|done].
  destruct (ns !! el); simpl; [by rewrite Hf | done].
Qed.

(** A callback that is not there to restore [this] leaves its markup. *)
Lemma innerHTML_run cb this p :
  (∀ html, cb ≠ RestoreContent this html) →
  innerHTML <$> nodes (run cb p) !! this = innerHTML <$> nodes p !! this.
Proof.
  intros Hcb. destruct cb as [toast|b html]; unfold run; simpl.
  - unfold auto_remove, remove. destruct (parent_of toast p); [|done]. simpl.
    by rewrite !lookup_alter_innerHTML.
  - rewrite lookup_alter_ne; [done|]. intros ->. by eapply Hcb.
Qed.

Lemma innerHTML_of_run_restore this html p :
  is_Some (nodes p !! this) →
  innerHTML_of this (run (RestoreContent this html) p) = html.
Proof.
  intros [n Hn]. unfold innerHTML_of, run. simpl.
  by rewrite lookup_alter_eq, Hn.
Qed.

Lemma innerHTML_of_eq this p p' :
  innerHTML <$> nodes p' !! this = innerHTML <$> nodes p !! this →
  innerHTML_of this p' = innerHTML_of this p.
Proof. unfold innerHTML_of. by intros ->. Qed.

Lemma is_Some_eq this p p' :
  innerHTML <$> nodes p' !! this = innerHTML <$> nodes p !! this →
  is_Some (nodes p !! this) → is_Some (nodes p' !! this).
Proof.
  intros H [n Hn]. rewrite Hn in H. destruct (nodes p' !! this); [eauto|done].
Qed.

Section Feedback.
Variable this : nat.
Variable ours : timer callback.
Variable content : jstr.
Hypothesis ours_restores : Timers.callback ours = RestoreContent this content.

Lemma showing_copied_fire x p :
  showing_copied this ours p →
  x ∈ pending (timers p) → x ≠ ours →
  showing_copied this ours (fire timers with_timers run x p).
Proof.
  intros (Hsome & Hhtml & Hours & Hothers) Hx Hne.
  destruct (Hothers x Hx Hne) as [Hid Hcb].
  assert (innerHTML <$> nodes (fire timers with_timers run x p) !! this
          = innerHTML <$> nodes p !! this) as Heq.
  { unfold fire. by rewrite innerHTML_run. }
  split; [by eapply is_Some_eq|]. split.
  { by rewrite (innerHTML_of_eq _ _ _ Heq). }
  rewrite pending_fire. split.
  - apply elem_of_unset. split; [by intros H; apply Hid | done].
  - intros y [_ Hy]%elem_of_unset Hyne. by apply Hothers.
Qed.

Lemma restored_fire_ours p :
  showing_copied this ours p →
  restored this content (fire timers with_timers run ours p).
Proof.
  intros (Hsome & Hhtml & Hours & Hothers). split.
  - unfold fire. rewrite ours_restores.
    by apply innerHTML_of_run_restore.
  - intros y html. rewrite pending_fire. intros [Hid Hy]%elem_of_unset.
    destruct (decide (y = ours)) as [->|Hne]; [done|].
    by apply Hothers.
Qed.

Lemma restored_fire x p :
  restored this content p →
  x ∈ pending (timers p) →
  restored this content (fire timers with_timers run x p).
Proof.
  intros [Hhtml Hnone] Hx. split.
  - rewrite <- Hhtml. apply innerHTML_of_eq. unfold fire.
    rewrite innerHTML_run; [done|]. intros html. by apply Hnone.
  - intros y html. rewrite pending_fire. intros [_ Hy]%elem_of_unset.
    by apply Hnone.
Qed.

Lemma innerHTML_of_advance t p :
  innerHTML_of this (advance t p)
  = innerHTML_of this
      (fire_due timers with_timers run (length (pending (timers p))) t p).
Proof. reflexivity. Qed.

(** Until the timer is due the control shows the confirmation; once it is
    due, its content is back. *)
Lemma showing_copied_advance t p :
  showing_copied this ours p →
  innerHTML_of this (advance t p)
  = if due ours <=? t then content else copied_markup.
Proof.
  intros Hp. rewrite innerHTML_of_advance.
  destruct (due ours <=? t) eqn:Hdue.
  - apply Nat.leb_le in Hdue.
    set (P := λ w, showing_copied this ours w ∨ restored this content w).
    assert (P (fire_due timers with_timers run
                 (length (pending (timers p))) t p)) as [Hc | [Hr _]].
    { apply fire_due_invariant; [|by left].
      intros w x [Hc | Hr] [Hx _]%next_due_Some.
      - destruct (decide (x = ours)) as [->|Hne].
        + right. by apply restored_fire_ours.
        + left. by apply showing_copied_fire.
      - right. by apply restored_fire. }
    + destruct Hc as (_ & _ & Hours & _).
      pose proof (fire_due_done timers with_timers run pending_fire
                    (length (pending (timers p))) t p (le_n _)) as Hdone.
      pose proof (next_due_None _ _ _ Hdone Hours). lia.
    + done.
  - apply Nat.leb_gt in Hdue.
    assert (showing_copied this ours
              (fire_due timers with_timers run
                 (length (pending (timers p))) t p))
      as (_ & Hhtml & _).
    { apply fire_due_invariant; [|done].
      intros w x Hc [Hx Hle]%next_due_Some.
      apply showing_copied_fire; [done..|]. intros ->. lia. }
    done.
Qed.

End Feedback.

Lemma showToast_lookup message type duration p k :
  page_ok p → k < next_node p →
  innerHTML <$> nodes (showToast message type duration p) !! k
  = innerHTML <$> nodes p !! k.
Proof.
  intros Hok Hk. unfold showToast, appendChild, set_toast_markup. simpl.
  rewrite lookup_alter_ne by lia. rewrite lookup_alter_innerHTML by done.
  rewrite !lookup_insert_ne by lia. rewrite !lookup_alter_ne by lia.
  by rewrite lookup_insert_ne by lia.
Qed.

Lemma showToast_toast message type duration p :
  page_ok p →
  ∃ toast,
    nodes (showToast message type duration p) !! next_node p = Some toast
    ∧ parentElement toast = Some body
    ∧ className toast = lit "toast " ++ getToastClasses type
    ∧ innerHTML toast = toast_markup (getToastIcon type) message.
Proof.
  intros Hok. pose proof (body_lt_next_node p Hok) as Hlt.
  unfold showToast, appendChild, set_toast_markup. simpl.
  rewrite lookup_alter_eq, lookup_alter_ne by lia.
  rewrite !lookup_insert_ne by lia.
  rewrite !lookup_alter_eq, lookup_insert_eq. simpl. eauto.
Qed.

Lemma lt_next_node p k n : page_ok p → nodes p !! k = Some n → k < next_node p.
Proof.
  intros [_ Hfresh] Hk. destruct (decide (k < next_node p)); [done|].
  rewrite Hfresh in Hk by lia. done.
Qed.

Lemma clipboard_copy_resume this text p :
  clipboard (copy_resume this text true p) = text.
Proof. reflexivity. Qed.

Lemma nodes_copy_resume this text p :
  nodes (copy_resume this text true p)
  = alter (set_innerHTML copied_markup) this
      (nodes (showToast (lit "Copied to clipboard!") (lit "success")
                        default_duration (with_clipboard text p))).
Proof. reflexivity. Qed.

Lemma timers_copy_resume this text p :
  timers (copy_resume this text true p)
  = Queue (now (timers p))
      ((pending (timers p)
        ++ [Timer (next_id (timers p)) (now (timers p) + default_duration)
                  (AutoRemove (next_node p))])
       ++ [Timer (S (next_id (timers p))) (now (timers p) + 2000)
             (RestoreContent this
                (innerHTML_of this
                   (showToast (lit "Copied to clipboard!") (lit "success")
                              default_duration (with_clipboard text p))))])
      (S (S (next_id (timers p)))).
Proof. reflexivity. Qed.

(** C1, as the script has it: the control [this] refers to an element
    that exists, and has not been activated in the last 2000 ms.  The
    listener asks for the text to be written; when the write succeeds, a
    toast of type [success] with the message "Copied to clipboard!" is
    appended to the body, the control shows the "copied" markup, and the
    control keeps it until 2000 ms later, when its content of before is
    back. *)
Theorem copy_success querySelector this control el target p :
  page_ok p →
  queue_ok (timers p) →
  no_restore_pending this (timers p) →
  nodes p !! this = Some control →
  querySelector p (default (lit "undefined") (data_copy control)) = Found el →
  nodes p !! el = Some target →
  copy_click querySelector this p = Awaiting (textToCopy target)
  ∧ clipboard (copy_resume this (textToCopy target) true p)
    = textToCopy target
  ∧ (∃ toast,
       nodes (copy_resume this (textToCopy target) true p) !! next_node p
       = Some toast
       ∧ parentElement toast = Some body
       ∧ className toast = lit "toast " ++ getToastClasses (lit "success")
       ∧ innerHTML toast
         = toast_markup (getToastIcon (lit "success"))
                        (lit "Copied to clipboard!"))
  ∧ innerHTML_of this (copy_resume this (textToCopy target) true p)
    = copied_markup
  ∧ ∀ T,
      innerHTML_of this
        (advance T (copy_resume this (textToCopy target) true p))
      = if now (timers p) + 2000 <=? T then innerHTML control
        else copied_markup.
Proof.
  intros Hok Hq Hnone Hthis Hsel Hel.
  pose proof (lt_next_node _ _ _ Hok Hthis) as Hlt.
  set (text := textToCopy target).
  assert (page_ok (with_clipboard text p)) as Hok' by done.
  pose proof (showToast_lookup (lit "Copied to clipboard!") (lit "success")
                default_duration (with_clipboard text p) this Hok' Hlt)
    as HpT.
  change (nodes (with_clipboard text p)) with (nodes p) in HpT.
  rewrite Hthis in HpT.
  assert (innerHTML_of this (copy_resume this text true p) = copied_markup)
    as Hshown.
  { unfold innerHTML_of. rewrite nodes_copy_resume, lookup_alter_eq.
    by destruct (nodes (showToast _ _ _ _) !! this). }
  split; [|split; [|split; [|split]]].
  - unfold copy_click. rewrite Hthis.
    change (Some control ≫= data_copy) with (data_copy control).
    by rewrite Hsel, Hel.
  - apply clipboard_copy_resume.
  - destruct (showToast_toast (lit "Copied to clipboard!") (lit "success")
                default_duration _ Hok') as (toast & Ht & Hrest).
    exists toast. split; [|done].
    rewrite nodes_copy_resume, lookup_alter_ne by (cbn; lia). exact Ht.
  - exact Hshown.
  - intros T.
    rewrite (showing_copied_advance this
               (Timer (S (next_id (timers p))) (now (timers p) + 2000)
                      (RestoreContent this (innerHTML control)))
               (innerHTML control) eq_refl); [done|].
    split; [|split; [exact Hshown|]].
    { rewrite nodes_copy_resume, lookup_alter_eq.
      destruct (nodes (showToast _ _ _ _) !! this); [by eexists | done]. }
    rewrite timers_copy_resume. unfold innerHTML_of. rewrite HpT.
    change (default [] (innerHTML <$> Some control)) with (innerHTML control).
    cbn [pending id].
    split.
    + apply elem_of_app. right. by left.
    + intros x Hx Hne.
      apply elem_of_app in Hx as [Hx|Hx];
        [|apply list_elem_of_singleton in Hx; by subst].
      apply elem_of_app in Hx as [Hx|Hx].
      * split; [specialize (Hq x Hx); cbn; lia|].
        intros html. by apply Hnone.
      * apply list_elem_of_singleton in Hx. subst x.
        split; [cbn; lia | done].
Qed.

Lemma page_ok_copy_page v text : page_ok (copy_page v text).
Proof.
  split; [by eexists|]. intros k Hk. unfold copy_page, body in *.
  cbn [nodes next_node] in *.
  rewrite !lookup_insert_ne by lia. apply lookup_singleton_ne. lia.
Qed.

Lemma queue_ok_idle t : queue_ok (idle t).
Proof. intros x Hx. by apply elem_of_nil in Hx. Qed.

Lemma no_restore_pending_idle this t : no_restore_pending this (idle t).
Proof. intros x html Hx. by apply elem_of_nil in Hx. Qed.

(** On the referral page the control shows the confirmation until 1999 ms
    after the copy and reads "Copy" again at 2000 ms. *)
Lemma copy_success_witness :
  innerHTML_of 2
    (advance 1999
       (copy_resume 2 (lit "https://cc.example/ref/abc") true
          (referral_page (lit "https://cc.example/ref/abc"))))
  = copied_markup
  ∧ innerHTML_of 2
      (advance 2000
         (copy_resume 2 (lit "https://cc.example/ref/abc") true
            (referral_page (lit "https://cc.example/ref/abc"))))
    = lit "Copy".
Proof.
  destruct (copy_success referral_select 2
              (Node (Some body) [] [] (lit "Copy") None (lit "Copy")
                    (Some (lit "#ref")))
              1
              (Node (Some body) [] [] []
                    (Some (lit "https://cc.example/ref/abc")) [] None)
              (referral_page (lit "https://cc.example/ref/abc"))
              (page_ok_copy_page _ _) (queue_ok_idle 0)
              (no_restore_pending_idle 2 0) eq_refl eq_refl eq_refl)
    as (_ & _ & _ & _ & Hadv).
  split; [apply (Hadv 1999) | apply (Hadv 2000)].
Defined.

(** C1 as stated fails on the script: the toast shown on success is of
    type [success] (green), and no element of the page is the [info] toast
    (red) that the claim has.  Besides, a control activated again 1000 ms
    after a first copy takes the confirmation for its content: once both
    timers have fired it shows the confirmation, not "Copy". *)
Lemma copy_toast_is_success_not_info :
  (∃ toast,
     nodes (copy_resume 2 (lit "https://cc.example/ref/abc") true
              (referral_page (lit "https://cc.example/ref/abc"))) !! 3
     = Some toast
     ∧ parentElement toast = Some body
     ∧ toast_of_type (lit "success") toast)
  ∧ map_Forall (λ _ n, ¬ toast_of_type (lit "info") n)
      (nodes (copy_resume 2 (lit "https://cc.example/ref/abc") true
                (referral_page (lit "https://cc.example/ref/abc"))))
  ∧ innerHTML_of 2
      (advance 5000
         (copy_resume 2 (lit "https://cc.example/ref/abc") true
            (advance 1000
               (copy_resume 2 (lit "https://cc.example/ref/abc") true
                  (referral_page (lit "https://cc.example/ref/abc"))))))
    = copied_markup.
Proof.
  split; [|split].
  - destruct (showToast_toast (lit "Copied to clipboard!") (lit "success")
                default_duration
                (with_clipboard (lit "https://cc.example/ref/abc")
                   (referral_page (lit "https://cc.example/ref/abc")))
                (page_ok_copy_page _ _))
      as (toast & Ht & Hp & Hc & Hm).
    exists toast. split; [|split; [done|split; [done|eauto]]].
    rewrite nodes_copy_resume, lookup_alter_ne by done. exact Ht.
  - assert (map_Forall
              (λ _ n, className n
                      ≠ lit "toast " ++ getToastClasses (lit "info"))
              (nodes (copy_resume 2 (lit "https://cc.example/ref/abc") true
                        (referral_page (lit "https://cc.example/ref/abc")))))
      as Hall.
    { refine (bool_decide_unpack _ _). by vm_compute. }
    intros k n Hn [Hc _]. by apply (Hall k n Hn).
  - by vm_compute.
Qed.

(** C9: the control refers to an element whose [value] is the empty
    string.  The text the listener asks to be written is the element's
    [textContent], and that is what the clipboard holds once the write has
    succeeded. *)
Theorem copy_empty_value querySelector this control el target p :
  nodes p !! this = Some control →
  querySelector p (default (lit "undefined") (data_copy control)) = Found el →
  nodes p !! el = Some target →
  value target = Some [] →
  copy_click querySelector this p = Awaiting (textContent target)
  ∧ ∀ p', clipboard (copy_resume this (textContent target) true p')
          = textContent target.
Proof.
  intros Hthis Hsel Hel Hv. split; [|intros p'; apply clipboard_copy_resume].
  unfold copy_click. rewrite Hthis.
  change (Some control ≫= data_copy) with (data_copy control).
  rewrite Hsel, Hel. unfold textToCopy. by rewrite Hv.
Qed.

(** A [<textarea id="ref">] whose text is "Join with my link" and whose
    value the user has cleared: the text is what gets copied. *)
Lemma copy_empty_value_witness :
  copy_click referral_select 2 (copy_page (Some []) (lit "Join with my link"))
  = Awaiting (lit "Join with my link").
Proof.
  apply (copy_empty_value referral_select 2
           (Node (Some body) [] [] (lit "Copy") None (lit "Copy")
                 (Some (lit "#ref")))
           1
           (Node (Some body) [] [] [] (Some []) (lit "Join with my link")
                 None)
           (copy_page (Some []) (lit "Join with my link"))
           eq_refl eq_refl eq_refl eq_refl).
Defined.

End CopyFacts.

(** ** More on single-field validation and on the form listeners *)

Module FormFacts.
Import Validation Outcome Forms ValidationFacts.
Local Open Scope nat_scope.

Lemma validateField_empty_value i d f :
  fields d !! i = Some f →
  trim (value f) = [] →
  validateField i d =
    if required f then
      Some (false, showFieldError i msg_required (clearFieldError i d))
    else Some (true, clearFieldError i d).
Proof.
  intros Hf Hv. unfold validateField. rewrite Hf, Hv. simpl.
  by destruct (required f).
Qed.

(** Every call on an existing control ends in one of two ways: [true], with
    the error display cleared, or [false], with one of the five messages
    shown on the cleared display. *)
Lemma validateField_cases i d f :
  fields d !! i = Some f →
  validateField i d = Some (true, clearFieldError i d)
  ∨ ∃ msg, msg ∈ messages
           ∧ validateField i d
             = Some (false, showFieldError i msg (clearFieldError i d)).
Proof.
  intros Hf. destruct (decide (trim (value f) = [])) as [Hv|Hv].
  - rewrite (validateField_empty_value i d f Hf Hv).
    destruct (required f); [right|by left].
    exists msg_required. split; [|done]. apply list_elem_of_In. simpl. tauto.
  - rewrite (validateField_nonempty i d f Hf Hv). simpl.
    destruct (_ && negb (isValidEmail _)).
    { right. exists msg_email. split; [|done]. apply list_elem_of_In. simpl. tauto. }
    destruct (_ && _ && _).
    { right. exists msg_password. split; [|done].
      apply list_elem_of_In. simpl. tauto. }
    destruct (_ && negb (isValidPhone _)).
    { right. exists msg_phone. split; [|done]. apply list_elem_of_In. simpl. tauto. }
    destruct (confirmation_stage i d f Hf) as [[_ Hr] | [_ Hr]];
      simpl in Hr; rewrite Hr; [by left|].
    right. exists msg_mismatch. split; [|done]. apply list_elem_of_In. simpl. tauto.
Qed.

(** X1: a field whose value is empty or all whitespace is judged by its
    [required] flag alone, whatever its type and name: rejected with "This
    field is required" when required, accepted when not. *)
Theorem validateField_empty i d f :
  fields d !! i = Some f →
  trim (value f) = [] →
  (required f = true → rejected_with msg_required i d)
  ∧ (required f = false → accepted i d).
Proof.
  intros Hf Hv. pose proof (validateField_empty_value i d f Hf Hv) as Hval.
  destruct (lookup_clearFieldError i d f Hf) as [cl Hf1].
  split; intros Hr; rewrite Hr in Hval.
  - by eapply rejected_with_intro.
  - by eexists.
Qed.

Lemma validateField_empty_witness :
  rejected_with msg_required 0
    (Samples.one_field (lit "email") (lit "email") (lit "   ") true)
  ∧ accepted 0
      (Samples.one_field (lit "email") (lit "email") (lit "   ") false).
Proof.
  split.
  - by apply (validateField_empty 0
                (Samples.one_field (lit "email") (lit "email") (lit "   ")
                                   true)
                (Samples.input (lit "email") (lit "email") (lit "   ") true 0)
                eq_refl eq_refl).
  - by apply (validateField_empty 0
                (Samples.one_field (lit "email") (lit "email") (lit "   ")
                                   false)
                (Samples.input (lit "email") (lit "email") (lit "   ") false
                               0)
                eq_refl eq_refl).
Defined.

(** X2: a field of type [password] named [password1] whose trimmed value
    is not empty is rejected with the length message exactly when the
    trimmed value has fewer than 8 code units, and accepted otherwise. *)
Theorem validateField_password1 i d f :
  fields d !! i = Some f →
  type f = lit "password" →
  name f = lit "password1" →
  trim (value f) ≠ [] →
  (rejected_with msg_password i d ↔ (length (trim (value f)) < 8)%nat)
  ∧ (accepted i d ↔ (8 ≤ length (trim (value f)))%nat).
Proof.
  intros Hf Hty Hn Hv.
  pose proof (validateField_nonempty i d f Hf Hv) as Hval. simpl in Hval.
  unfold confirmation_rule in Hval. rewrite Hty, Hn in Hval.
  change (str_eqb (lit "password") (lit "email")) with false in Hval.
  change (str_eqb (lit "password") (lit "password")) with true in Hval.
  change (str_eqb (lit "password") (lit "tel")) with false in Hval.
  change (str_eqb (lit "password1") (lit "password1")) with true in Hval.
  change (str_eqb (lit "password1") (lit "password2")) with false in Hval.
  simpl in Hval.
  destruct (lookup_clearFieldError i d f Hf) as [cl Hf1].
  destruct (length (trim (value f)) <? 8)%nat eqn:Hlen.
  - apply Nat.ltb_lt in Hlen.
    assert (rejected_with msg_password i d) as Hrej
      by (by eapply rejected_with_intro).
    split; [done|]. split; [|lia]. intros [d' Hd']. congruence.
  - apply Nat.ltb_ge in Hlen.
    assert (accepted i d) as Hacc by (by eexists).
    split; [|done]. split; [|lia]. intros (d' & Hd' & _). congruence.
Qed.

Lemma validateField_password1_witness :
  rejected_with msg_password 0
    (Samples.signup (lit " abc1234 ") (lit "abc1234") true)
  ∧ accepted 0 (Samples.signup (lit "abc12345") (lit "abc12345") true).
Proof.
  split.
  - apply (validateField_password1 0
             (Samples.signup (lit " abc1234 ") (lit "abc1234") true)
             (Samples.input (lit "password") (lit "password1")
                            (lit " abc1234 ") true 0)
             eq_refl eq_refl eq_refl); [by vm_compute|].
    vm_compute. lia.
  - apply (validateField_password1 0
             (Samples.signup (lit "abc12345") (lit "abc12345") true)
             (Samples.input (lit "password") (lit "password1")
                            (lit "abc12345") true 0)
             eq_refl eq_refl eq_refl); [by vm_compute|].
    vm_compute. lia.
Defined.

(** X3: a field under no rule is accepted whatever it holds: its type is
    neither [email] nor [tel], it is not the [password] field named
    [password1], and it is not named [password2]. *)
Theorem validateField_no_rule i d f :
  fields d !! i = Some f →
  type f ≠ lit "email" →
  type f ≠ lit "tel" →
  (type f = lit "password" → name f ≠ lit "password1") →
  name f ≠ lit "password2" →
  trim (value f) ≠ [] →
  validateField i d = Some (true, clearFieldError i d).
Proof.
  intros Hf He Ht Hp Hn Hv.
  rewrite (validateField_type_rule_passes i d f Hf Hv).
  - unfold confirmation_rule. apply str_eqb_false in Hn. by rewrite Hn.
  - split; [done|]. split; [|done]. intros H1 H2. by destruct (Hp H1).
Qed.

Lemma validateField_no_rule_witness :
  validateField 0 (Samples.one_field (lit "text") (lit "username")
                                     (lit "not-an-email") true)
  = Some (true, clearFieldError 0
                  (Samples.one_field (lit "text") (lit "username")
                                     (lit "not-an-email") true)).
Proof.
  apply (validateField_no_rule 0
           (Samples.one_field (lit "text") (lit "username")
                              (lit "not-an-email") true)
           (Samples.input (lit "text") (lit "username") (lit "not-an-email")
                          true 0)
           eq_refl); by vm_compute.
Defined.

(** What the two display helpers do to an existing control. *)

Lemma clearFieldError_fields i d f :
  fields d !! i = Some f →
  fields (clearFieldError i d)
  = <[i := set_classList
             ((classList f ∖ {["border-red-500"%string]}
                           ∖ {["ring-red-500"%string]})
              ∪ {["border-red-300"%string]}) f]> (fields d).
Proof.
  intros Hf. unfold clearFieldError. rewrite Hf.
  by destruct (errors_of _ _).
Qed.

Lemma clearFieldError_errors i d f :
  fields d !! i = Some f →
  errors_of (clearFieldError i d) (parentElement f)
  = tail (errors_of d (parentElement f)).
Proof.
  intros Hf. unfold clearFieldError. rewrite Hf.
  change (errors_of (set_fields _ d) (parentElement f))
    with (errors_of d (parentElement f)).
  destruct (errors_of d (parentElement f)) as [|e rest] eqn:He.
  - unfold errors_of in *. simpl. by rewrite He.
  - unfold errors_of. simpl. by rewrite lookup_insert_eq.
Qed.

Lemma showFieldError_fields i msg d f :
  fields d !! i = Some f →
  fields (showFieldError i msg d)
  = <[i := set_classList
             ((classList f ∪ {["border-red-500"%string]}
                           ∪ {["ring-red-500"%string]})
              ∖ {["border-red-300"%string]}) f]> (fields d).
Proof. intros Hf. unfold showFieldError. by rewrite Hf. Qed.

Lemma showFieldError_errors i msg d f :
  fields d !! i = Some f →
  length (errors_of (showFieldError i msg d) (parentElement f))
  = max 1 (length (errors_of d (parentElement f))).
Proof.
  intros Hf. unfold showFieldError. rewrite Hf.
  change (errors_of (set_fields _ d) (parentElement f))
    with (errors_of d (parentElement f)).
  unfold errors_of at 1. simpl. rewrite lookup_insert_eq. simpl.
  destruct (errors_of d (parentElement f)); simpl; lia.
Qed.

Lemma lookup_insert_classList (l : list field) i j f cl :
  l !! i = Some f →
  unstyled <$> <[i := set_classList cl f]> l !! j = unstyled <$> l !! j.
Proof.
  intros Hf. destruct (decide (i = j)) as [<-|Hne].
  - rewrite list_lookup_insert_eq by (by eapply lookup_lt_Some).
    by rewrite Hf.
  - by rewrite list_lookup_insert_ne.
Qed.

Lemma cleared_classes (cl : gset string) :
  ("border-red-500"%string
     ∉ (cl ∖ {["border-red-500"%string]} ∖ {["ring-red-500"%string]})
       ∪ {["border-red-300"%string]})
  ∧ ("ring-red-500"%string
       ∉ (cl ∖ {["border-red-500"%string]} ∖ {["ring-red-500"%string]})
         ∪ {["border-red-300"%string]})
  ∧ "border-red-300"%string
      ∈ (cl ∖ {["border-red-500"%string]} ∖ {["ring-red-500"%string]})
        ∪ {["border-red-300"%string]}.
Proof.
  rewrite !elem_of_union, !elem_of_difference, !elem_of_singleton.
  intuition discriminate.
Qed.

Lemma flagged_classes (cl : gset string) :
  "border-red-500"%string
    ∈ (cl ∪ {["border-red-500"%string]} ∪ {["ring-red-500"%string]})
      ∖ {["border-red-300"%string]}
  ∧ "ring-red-500"%string
      ∈ (cl ∪ {["border-red-500"%string]} ∪ {["ring-red-500"%string]})
        ∖ {["border-red-300"%string]}
  ∧ ("border-red-300"%string
       ∉ (cl ∪ {["border-red-500"%string]} ∪ {["ring-red-500"%string]})
         ∖ {["border-red-300"%string]}).
Proof.
  rewrite !elem_of_difference, !elem_of_union, !elem_of_singleton.
  intuition discriminate.
Qed.

(** The frame of one call, in the two ways it can end. *)
Lemma clearFieldError_frame i d f :
  fields d !! i = Some f →
  length (fields (clearFieldError i d)) = length (fields d)
  ∧ (∀ j, unstyled <$> fields (clearFieldError i d) !! j
          = unstyled <$> fields d !! j)
  ∧ (∀ j, j ≠ i → fields (clearFieldError i d) !! j = fields d !! j).
Proof.
  intros Hf. rewrite (clearFieldError_fields i d f Hf).
  split; [apply length_insert|]. split.
  - intros j. by apply lookup_insert_classList.
  - intros j Hne. by rewrite list_lookup_insert_ne.
Qed.

Lemma showFieldError_frame i msg d f :
  fields d !! i = Some f →
  length (fields (showFieldError i msg d)) = length (fields d)
  ∧ (∀ j, unstyled <$> fields (showFieldError i msg d) !! j
          = unstyled <$> fields d !! j)
  ∧ (∀ j, j ≠ i → fields (showFieldError i msg d) !! j = fields d !! j).
Proof.
  intros Hf. rewrite (showFieldError_fields i msg d f Hf).
  split; [apply length_insert|]. split.
  - intros j. by apply lookup_insert_classList.
  - intros j Hne. by rewrite list_lookup_insert_ne.
Qed.

Lemma validateField_Some i d b d' :
  validateField i d = Some (b, d') → ∃ f, fields d !! i = Some f.
Proof.
  unfold validateField. destruct (fields d !! i) as [f|]; [eauto|done].
Qed.

Lemma validateField_data i d b d' :
  validateField i d = Some (b, d') →
  length (fields d') = length (fields d)
  ∧ (∀ j, unstyled <$> fields d' !! j = unstyled <$> fields d !! j)
  ∧ (∀ j, j ≠ i → fields d' !! j = fields d !! j).
Proof.
  intros Hval. destruct (validateField_Some _ _ _ _ Hval) as [f Hf].
  destruct (clearFieldError_frame i d f Hf) as (Hlen & Hdata & Hother).
  destruct (lookup_clearFieldError i d f Hf) as [cl Hf1].
  destruct (validateField_cases i d f Hf) as [Hok | (msg & _ & Hbad)].
  - rewrite Hok in Hval. by injection Hval as <- <-.
  - rewrite Hbad in Hval. injection Hval as <- <-.
    destruct (showFieldError_frame i msg _ _ Hf1) as (Hlen' & Hdata' & Hother').
    split; [congruence|]. split; [intros j; by rewrite Hdata'|].
    intros j Hj. by rewrite Hother', Hother.
Qed.

(** X4: a call of [validateField] leaves the data of the form alone: no
    control is added or removed, every control keeps its tag, value, type,
    name, [required] flag and parent, and the controls other than the
    validated one are left exactly as they are, styling included. *)
Theorem validateField_frame i d b d' :
  validateField i d = Some (b, d') →
  length (fields d') = length (fields d)
  ∧ (∀ j, unstyled <$> fields d' !! j = unstyled <$> fields d !! j)
  ∧ (∀ j, j ≠ i → fields d' !! j = fields d !! j).
Proof.
  intros Hval. destruct (validateField_Some _ _ _ _ Hval) as [f Hf].
  destruct (clearFieldError_frame i d f Hf) as (Hlen & Hdata & Hother).
  destruct (lookup_clearFieldError i d f Hf) as [cl Hf1].
  destruct (validateField_cases i d f Hf) as [Hok | (msg & _ & Hbad)].
  - rewrite Hok in Hval. by injection Hval as <- <-.
  - rewrite Hbad in Hval. injection Hval as <- <-.
    destruct (showFieldError_frame i msg _ _ Hf1) as (Hlen' & Hdata' & Hother').
    split; [congruence|]. split; [intros j; by rewrite Hdata'|].
    intros j Hj. by rewrite Hother', Hother.
Qed.

Lemma validateField_frame_witness :
  ∃ d', validateField 1 (Samples.signup (lit "abc12345") (lit "different")
                                         true)
        = Some (false, d')
        ∧ fields d' !! 0%nat
          = Some (Samples.input (lit "password") (lit "password1")
                                (lit "abc12345") true 0).
Proof.
  eexists. split; [by vm_compute|].
  refine (proj2 (proj2 (validateField_frame 1
            (Samples.signup (lit "abc12345") (lit "different") true)
            false _ _)) 0%nat _); [by vm_compute | done].
Defined.

Lemma validateField_marks i d b d' :
  validateField i d = Some (b, d') →
  if b then marked_neutral i d' else marked_invalid i d'.
Proof.
  intros Hval. destruct (validateField_Some _ _ _ _ Hval) as [f Hf].
  pose proof (clearFieldError_fields i d f Hf) as Hcl.
  assert (i < length (fields d)) as Hi by (by eapply lookup_lt_Some).
  assert (fields (clearFieldError i d) !! i
          = Some (set_classList
                    ((classList f ∖ {["border-red-500"%string]}
                                  ∖ {["ring-red-500"%string]})
                     ∪ {["border-red-300"%string]}) f)) as Hf1.
  { rewrite Hcl. by apply list_lookup_insert_eq. }
  destruct (validateField_cases i d f Hf) as [Hok | (msg & Hmsg & Hbad)].
  - rewrite Hok in Hval. injection Hval as <- <-.
    eexists. split; [exact Hf1|]. simpl.
    destruct (cleared_classes (classList f)) as (H1 & H2 & H3). done.
  - rewrite Hbad in Hval. injection Hval as <- <-.
    eexists. split.
    { rewrite (showFieldError_fields i msg _ _ Hf1).
      apply list_lookup_insert_eq. by rewrite Hcl, length_insert. }
    simpl. apply flagged_classes.
Qed.

(** X5: the styling tells how the call ended.  After a [true] the control
    carries [border-red-300] and neither of the two red classes; after a
    [false] it carries the two red classes and not [border-red-300], and
    one of the five messages is displayed at it. *)
Theorem validateField_display i d b d' :
  validateField i d = Some (b, d') →
  if b then marked_neutral i d'
  else marked_invalid i d'
       ∧ ∃ msg, msg ∈ messages ∧ shown_error i d' = Some msg.
Proof.
  intros Hval. pose proof (validateField_marks i d b d' Hval) as Hmarks.
  destruct b; [done|]. split; [done|].
  destruct (validateField_Some _ _ _ _ Hval) as [f Hf].
  destruct (lookup_clearFieldError i d f Hf) as [cl Hf1].
  destruct (validateField_cases i d f Hf) as [Hok | (msg & Hmsg & Hbad)];
    [congruence|].
  rewrite Hbad in Hval. injection Hval as <-.
  exists msg. split; [done|]. by eapply shown_error_showFieldError.
Qed.

Lemma validateField_display_witness :
  marked_invalid 0
    (blur_listener 0 (Samples.one_field (lit "email") (lit "email")
                                        (lit "not-an-email") true)).
Proof.
  refine (proj1 (validateField_display 0
            (Samples.one_field (lit "email") (lit "email")
                               (lit "not-an-email") true)
            false _ _)).
  by vm_compute.
Defined.

(** X6: message elements do not pile up.  With [n] elements of class
    [field-error] in the parent before the call, there are [n - 1] after a
    [true] (the first one is removed) and [max 1 (n - 1)] after a [false]
    (the next one is reused, or one is created): a parent that had at most
    one has at most one. *)
Theorem validateField_message_count i d f b d' :
  fields d !! i = Some f →
  validateField i d = Some (b, d') →
  length (errors_of d' (parentElement f))
  = if b then (length (errors_of d (parentElement f)) - 1)%nat
    else max 1 (length (errors_of d (parentElement f)) - 1).
Proof.
  intros Hf Hval.
  destruct (lookup_clearFieldError i d f Hf) as [cl Hf1].
  pose proof (clearFieldError_errors i d f Hf) as Hclear.
  assert (length (errors_of (clearFieldError i d) (parentElement f))
          = (length (errors_of d (parentElement f)) - 1)%nat) as Hlen.
  { rewrite Hclear. by destruct (errors_of d (parentElement f)); simpl; lia. }
  destruct (validateField_cases i d f Hf) as [Hok | (msg & _ & Hbad)].
  - rewrite Hok in Hval. by injection Hval as <- <-.
  - rewrite Hbad in Hval. injection Hval as <- <-.
    change (parentElement f) with (parentElement (set_classList cl f)).
    rewrite (showFieldError_errors i msg _ _ Hf1). simpl. by rewrite Hlen.
Qed.

Lemma validateField_message_count_witness :
  ∃ d', validateField 0 (Samples.one_field (lit "email") (lit "email")
                                            (lit "not-an-email") true)
        = Some (false, d')
        ∧ length (errors_of d' 0) = 1.
Proof.
  eexists. split; [by vm_compute|].
  apply (validateField_message_count 0
           (Samples.one_field (lit "email") (lit "email")
                              (lit "not-an-email") true)
           (Samples.input (lit "email") (lit "email") (lit "not-an-email")
                          true 0)
           false); by vm_compute.
Defined.

(** The boolean of a call depends on the data of the controls, not on
    their styling nor on the message elements. *)

Lemma unstyled_eq f f' :
  unstyled f' = unstyled f →
  value f' = value f ∧ type f' = type f ∧ name f' = name f
  ∧ required f' = required f ∧ tagName f' = tagName f.
Proof.
  intros H.
  split; [exact (f_equal value H)|]. split; [exact (f_equal type H)|].
  split; [exact (f_equal name H)|].
  split; [exact (f_equal required H) | exact (f_equal tagName H)].
Qed.

Lemma find_unstyled (P : field → bool) (l l' : list field) :
  (∀ f, P (unstyled f) = P f) →
  unstyled <$> l' = unstyled <$> l →
  value <$> find P l' = value <$> find P l.
Proof.
  intros HP. revert l'. induction l as [|f l IH]; intros [|f' l'] H;
    try done.
  pose proof (f_equal head H) as Hf. pose proof (f_equal tail H) as Hl.
  apply (inj Some) in Hf. change (unstyled <$> l' = unstyled <$> l) in Hl.
  simpl. rewrite <- (HP f'), Hf, (HP f).
  destruct (P f); [|by apply IH]. simpl.
  by destruct (unstyled_eq _ _ Hf) as (-> & _).
Qed.

Lemma query_password1_data d d' :
  (∀ j, unstyled <$> fields d' !! j = unstyled <$> fields d !! j) →
  value <$> query_password1 d' = value <$> query_password1 d.
Proof.
  intros H. unfold query_password1. apply find_unstyled; [done|].
  apply list_eq. intros j. by rewrite !list_lookup_fmap.
Qed.

Lemma fst_confirmation_rule i d d' f f' v :
  name f' = name f →
  value <$> query_password1 d' = value <$> query_password1 d →
  fst <$> confirmation_rule i d' f' v = fst <$> confirmation_rule i d f v.
Proof.
  intros Hn Hq. unfold confirmation_rule. rewrite Hn.
  destruct (str_eqb (name f) (lit "password2")); [|done].
  destruct (query_password1 d') as [p'|], (query_password1 d) as [p|];
    try done.
  injection Hq as ->. by destruct (negb _).
Qed.

Lemma valid_data d d' i :
  (∀ j, unstyled <$> fields d' !! j = unstyled <$> fields d !! j) →
  valid d' i = valid d i.
Proof.
  intros H. unfold valid. pose proof (H i) as Hi.
  destruct (fields d !! i) as [f|] eqn:Hf,
           (fields d' !! i) as [f'|] eqn:Hf'; try done.
  - injection Hi as _ Hv Hty Hn Hr _.
    destruct (decide (trim (value f) = [])) as [He|He].
    + rewrite (validateField_empty_value i d f Hf He).
      rewrite (validateField_empty_value i d' f' Hf') by (by rewrite Hv).
      rewrite Hr. by destruct (required f).
    + rewrite (validateField_nonempty i d f Hf He).
      rewrite (validateField_nonempty i d' f' Hf') by (by rewrite Hv).
      simpl. rewrite Hv, Hty, Hn.
      destruct (_ && negb (isValidEmail _)); [done|].
      destruct (_ && _ && _); [done|].
      destruct (_ && negb (isValidPhone _)); [done|].
      apply fst_confirmation_rule; [done|].
      rewrite !query_password1_clearFieldError.
      by apply query_password1_data.
  - unfold validateField. by rewrite Hf, Hf'.
Qed.

Lemma validate_inputs_snoc inputs j d :
  validate_inputs (inputs ++ [j]) d
  = match validateField j (validate_inputs inputs d).2 with
    | Some (ok, d') =>
        (if negb ok then false else (validate_inputs inputs d).1, d')
    | None => validate_inputs inputs d
    end.
Proof. unfold validate_inputs. by rewrite foldl_app. Qed.

Lemma validate_inputs_spec inputs d :
  (∀ j, unstyled <$> fields (validate_inputs inputs d).2 !! j
        = unstyled <$> fields d !! j)
  ∧ ((validate_inputs inputs d).1 = false
     ↔ ∃ i, i ∈ inputs ∧ valid d i = Some false)
  ∧ (∀ i, i ∈ inputs → valid d i = Some false →
       marked_invalid i (validate_inputs inputs d).2)
  ∧ (∀ i, i ∈ inputs → valid d i = Some true →
       marked_neutral i (validate_inputs inputs d).2).
Proof.
  induction inputs as [|j inputs IH] using rev_ind.
  - split; [done|]. split; [|split]; try (intros i Hi; by apply elem_of_nil in Hi).
    split; [done|]. intros (i & Hi & _). by apply elem_of_nil in Hi.
  - destruct IH as (Hdata & Hfalse & Hbad & Hgood).
    rewrite validate_inputs_snoc.
    pose proof (valid_data d _ j Hdata) as Hj. unfold valid in Hj.
    destruct (validateField j (validate_inputs inputs d).2)
      as [[ok d']|] eqn:Hval; simpl in Hj.
    + destruct (validateField_data _ _ _ _ Hval) as (_ & Hdata' & Hother).
      pose proof (validateField_marks _ _ _ _ Hval) as Hmarks.
      assert (valid d j = Some ok) as Hvj by done.
      simpl. split; [intros k; by rewrite Hdata'|]. split; [|split].
      * split.
        -- destruct ok; simpl.
           ++ intros (i & Hi & Hv)%Hfalse. exists i.
              split; [apply elem_of_app; by left | done].
           ++ intros _. exists j. split; [|done].
              apply elem_of_app. right. by apply list_elem_of_singleton.
        -- intros (i & [Hi | ->%list_elem_of_singleton]%elem_of_app & Hv).
           ++ destruct ok; simpl; [|done]. apply Hfalse. eauto.
           ++ rewrite Hvj in Hv. by injection Hv as ->.
      * intros i [Hi | ->%list_elem_of_singleton]%elem_of_app Hv.
        -- destruct (decide (i = j)) as [->|Hne].
           ++ rewrite Hvj in Hv. by injection Hv as ->.
           ++ destruct (Hbad i Hi Hv) as (f & Hf & Hcl).
              exists f. by rewrite Hother.
        -- rewrite Hvj in Hv. by injection Hv as ->.
      * intros i [Hi | ->%list_elem_of_singleton]%elem_of_app Hv.
        -- destruct (decide (i = j)) as [->|Hne].
           ++ rewrite Hvj in Hv. by injection Hv as ->.
           ++ destruct (Hgood i Hi Hv) as (f & Hf & Hcl).
              exists f. by rewrite Hother.
        -- rewrite Hvj in Hv. by injection Hv as ->.
    + assert (valid d j = None) as Hvj by done.
      split; [done|]. split; [|split].
      * rewrite Hfalse. split.
        -- intros (i & Hi & Hv). exists i.
           split; [apply elem_of_app; by left | done].
        -- intros (i & [Hi | ->%list_elem_of_singleton]%elem_of_app & Hv);
             [eauto | congruence].
      * intros i [Hi | ->%list_elem_of_singleton]%elem_of_app Hv;
          [by apply Hbad | congruence].
      * intros i [Hi | ->%list_elem_of_singleton]%elem_of_app Hv;
          [by apply Hgood | congruence].
Qed.

(** X7: the [submit] listener cancels the submission, and shows the toast
    "Please correct the errors below", exactly when [validateField] returns
    [false] for one of the controls of the form.  It does not stop at the
    first invalid control: afterwards every invalid control of the form is
    marked invalid and every valid one is not, and nothing but styling and
    messages has changed. *)
Theorem submit_listener_spec inputs d p :
  ((submit_listener inputs d p).1.1 = true
   ↔ ∃ i, i ∈ inputs ∧ valid d i = Some false)
  ∧ (submit_listener inputs d p).2
    = (if (submit_listener inputs d p).1.1 then
         Page.showToast (lit "Please correct the errors below") (lit "error")
                        Page.default_duration p
       else p)
  ∧ (∀ i, i ∈ inputs → valid d i = Some false →
       marked_invalid i (submit_listener inputs d p).1.2)
  ∧ (∀ i, i ∈ inputs → valid d i = Some true →
       marked_neutral i (submit_listener inputs d p).1.2)
  ∧ (∀ j, unstyled <$> fields (submit_listener inputs d p).1.2 !! j
          = unstyled <$> fields d !! j).
Proof.
  destruct (validate_inputs_spec inputs d) as (Hdata & Hfalse & Hbad & Hgood).
  unfold submit_listener.
  destruct (validate_inputs inputs d) as [isValid d'] eqn:Hv. simpl in *.
  destruct isValid; simpl.
  - split; [|done]. split; [done|]. intros H. by apply Hfalse in H.
  - split; [|done]. split; [intros _; by apply Hfalse | done].
Qed.

(** X8: typing in a control (the [input] listener) takes the invalid
    styling off it and removes the first message element of its parent,
    without validating: the control is marked neutral even when its value
    is still invalid, and the verdict of a validation is what it was. *)
Theorem input_listener_spec i d f :
  fields d !! i = Some f →
  marked_neutral i (input_listener i d)
  ∧ errors_of (input_listener i d) (parentElement f)
    = tail (errors_of d (parentElement f))
  ∧ ∀ j, valid (input_listener i d) j = valid d j.
Proof.
  intros Hf. unfold input_listener.
  destruct (clearFieldError_frame i d f Hf) as (_ & Hdata & _).
  split; [|split].
  - eexists. split.
    { rewrite (clearFieldError_fields i d f Hf).
      apply list_lookup_insert_eq. by eapply lookup_lt_Some. }
    simpl. destruct (cleared_classes (classList f)) as (H1 & H2 & H3). done.
  - by apply clearFieldError_errors.
  - intros j. by apply valid_data.
Qed.

Lemma input_listener_spec_witness :
  marked_neutral 0
    (input_listener 0
       (blur_listener 0 (Samples.one_field (lit "email") (lit "email")
                                           (lit "not-an-email") true)))
  ∧ valid (input_listener 0
             (blur_listener 0 (Samples.one_field (lit "email") (lit "email")
                                                 (lit "not-an-email") true)))
          0
    = Some false.
Proof.
  destruct (input_listener_spec 0
              (blur_listener 0 (Samples.one_field (lit "email") (lit "email")
                                                  (lit "not-an-email") true))
              (Field INPUT (lit "not-an-email") (lit "email") (lit "email")
                     true
                     {["border-red-500"%string; "ring-red-500"%string]} 0))
    as (Hmark & _ & Hvalid); [by vm_compute|].
  split; [done|]. rewrite Hvalid. by vm_compute.
Defined.

(** A sign-up form with a short [password1] and a [password2] that differs:
    the submission is cancelled and both controls are marked. *)
Lemma submit_listener_spec_witness :
  (submit_listener [0; 1]
     (Samples.signup (lit "abc") (lit "different") true)
     (Page.copy_page None [])).1.1 = true
  ∧ marked_invalid 1
      (submit_listener [0; 1]
         (Samples.signup (lit "abc") (lit "different") true)
         (Page.copy_page None [])).1.2.
Proof.
  destruct (submit_listener_spec [0; 1]
              (Samples.signup (lit "abc") (lit "different") true)
              (Page.copy_page None [])) as (Hprev & _ & Hbad & _).
  split.
  - apply Hprev. exists 0. split; [by left | by vm_compute].
  - apply Hbad; [by right; left | by vm_compute].
Defined.

End FormFacts.

(** ** More on the loading toggle *)

Module LoadingMore.
Import Loading LoadingFacts.



(** X10: a second [showLoading] before [hideLoading] stashes the spinner
    over the content: [hideLoading] then restores the spinner, whatever the
    element held, and the content it had is lost. *)
Theorem showLoading_twice_loses_content element :
  hideLoading (showLoading (showLoading element))
  = Element spinner (delete "originalContent"%string (dataset element)) false.
Proof.
  unfold hideLoading, showLoading. simpl.
  rewrite lookup_insert_eq. change (truthy spinner) with true. simpl.
  by rewrite !delete_insert_eq.
Qed.

(** X11: [hideLoading] is idempotent: a second call in a row changes
    nothing, whatever the element. *)
Theorem hideLoading_idempotent element :
  hideLoading (hideLoading element) = hideLoading element.
Proof.
  unfold hideLoading at 2 3.
  destruct (dataset element !! "originalContent"%string) as [c|] eqn:Hc.
  - destruct c as [|x c]; simpl.
    + unfold hideLoading. simpl. by rewrite Hc.
    + unfold hideLoading. simpl. by rewrite lookup_delete_eq.
  - unfold hideLoading. simpl. by rewrite Hc.
Qed.

End LoadingMore.

(** ** More on the dropdowns *)

Module DropdownMore.
Import Dropdown DropdownClicks DropdownFacts.
Local Open Scope nat_scope.

Lemma lookup_document_listener j dropdowns :
  document_listener dropdowns !! j
  = classList_remove "active" <$> dropdowns !! j.
Proof. unfold document_listener. apply list_lookup_fmap. Qed.

Lemma lookup_trigger_listener i j dropdowns :
  trigger_listener i dropdowns !! j
  = (if decide (j = i) then classList_toggle "active"
     else classList_remove "active") <$> dropdowns !! j.
Proof.
  unfold trigger_listener. destruct (decide (j = i)) as [->|Hne].
  - rewrite list_lookup_alter_eq, list_lookup_imap.
    destruct (dropdowns !! i); simpl; [|done].
    by rewrite bool_decide_eq_false_2 by (intros H; by apply H).
  - rewrite list_lookup_alter_ne by done. rewrite list_lookup_imap.
    destruct (dropdowns !! j); simpl; [|done].
    by rewrite bool_decide_eq_true_2.
Qed.

(** What a click makes of the container [j]: it is toggled when the click
    is on its own trigger and the container is wired, and closed
    otherwise. *)
Lemma lookup_dispatch e j dropdowns :
  dispatch e dropdowns !! j
  = (if bool_decide (e = Trigger j ∧ (wired <$> dropdowns !! j) = Some true)
     then classList_toggle "active"
     else classList_remove "active") <$> dropdowns !! j.
Proof.
  case_bool_decide as H.
  - destruct H as [-> Hw]. cbn [dispatch].
    destruct (dropdowns !! j) as [c|] eqn:Hc; [|done].
    injection Hw as ->. rewrite lookup_trigger_listener, Hc.
    by rewrite decide_True.
  - destruct e as [i|]; cbn [dispatch];
      [|apply lookup_document_listener].
    destruct (dropdowns !! i) as [c|] eqn:Hc;
      [|apply lookup_document_listener].
    destruct (wired c) eqn:Hw; [|apply lookup_document_listener].
    rewrite lookup_trigger_listener. rewrite decide_False; [done|].
    intros ->. apply H. by rewrite Hc, <- Hw.
Qed.

(** X12: a click touches nothing but the class [active]: the containers
    stay as many, each keeps its trigger and its panel, and every other
    class of its class list. *)
Theorem dispatch_frame e dropdowns :
  length (dispatch e dropdowns) = length dropdowns
  ∧ ∀ j c, dropdowns !! j = Some c →
      ∃ c', dispatch e dropdowns !! j = Some c'
            ∧ button c' = button c ∧ menu c' = menu c
            ∧ ∀ cls, cls ≠ "active"%string →
                     (cls ∈ classList c' ↔ cls ∈ classList c).
Proof.
  split.
  - destruct e as [i|]; simpl; unfold document_listener, trigger_listener;
      repeat case_match;
      by rewrite ?length_alter, ?length_imap, ?length_fmap.
  - intros j c Hc. rewrite lookup_dispatch, Hc. simpl.
    eexists. split; [done|]. case_bool_decide; simpl.
    + split; [done|]. split; [done|]. intros cls Hcls.
      case_bool_decide;
        rewrite ?elem_of_difference, ?elem_of_union, elem_of_singleton;
        tauto.
    + split; [done|]. split; [done|]. intros cls Hcls.
      rewrite elem_of_difference, elem_of_singleton. tauto.
Qed.

Lemma dispatch_frame_witness :
  ∃ c', dispatch (Trigger 0)
          [Container true true {["group"%string]};
           Container true true {["group"%string; "active"%string]}] !! 1
        = Some c'
        ∧ ("group"%string ∈ classList c'
           ↔ "group"%string
               ∈ classList (Container true true
                              {["group"%string; "active"%string]})).
Proof.
  destruct (proj2 (dispatch_frame (Trigger 0)
              [Container true true {["group"%string]};
               Container true true {["group"%string; "active"%string]}])
              1 (Container true true {["group"%string; "active"%string]})
              eq_refl)
    as (c' & Hc' & _ & _ & Hcls).
  exists c'. split; [done|]. by apply Hcls.
Defined.

(** X13: after a click a dropdown is open only if the click was on its own
    trigger, the container is wired, and it was closed before.  So a click
    on the trigger of the open dropdown closes it, and a click on a button
    of a container without a panel, like any click elsewhere, closes
    all. *)
Theorem open_after_click e j dropdowns :
  open_at j (dispatch e dropdowns) = true
  ↔ ∃ c, e = Trigger j ∧ dropdowns !! j = Some c
         ∧ wired c = true ∧ is_open c = false.
Proof.
  unfold open_at. rewrite lookup_dispatch.
  destruct (dropdowns !! j) as [c|] eqn:Hc; simpl.
  - case_bool_decide as H; simpl.
    + destruct H as [-> [= Hw]]. rewrite is_open_toggle. split.
      * intros Ho. exists c. by destruct (is_open c).
      * intros (c' & _ & [= <-] & _ & ->). done.
    + rewrite is_open_remove. split; [done|].
      intros (c' & -> & [= <-] & Hw & _). destruct H. by rewrite Hw.
  - split; [done|]. by intros (c' & _ & [=] & _).
Qed.

(** X14: a second click in a row on the same trigger undoes the first for
    that dropdown, which is open again if it was open and closed again if it
    was closed; the other dropdowns stay closed. *)
Theorem trigger_twice i j dropdowns c :
  dropdowns !! i = Some c →
  wired c = true →
  open_at j (dispatch (Trigger i) (dispatch (Trigger i) dropdowns))
  = if decide (j = i) then open_at i dropdowns else false.
Proof.
  intros Hc Hw. unfold open_at. rewrite !lookup_dispatch.
  destruct (decide (j = i)) as [->|Hne].
  - rewrite Hc. simpl. rewrite Hw.
    rewrite (bool_decide_eq_true_2 (_ ∧ Some true = Some true)) by done.
    change (wired (classList_toggle "active" c)) with (wired c).
    rewrite Hw, bool_decide_eq_true_2 by done.
    by rewrite !is_open_toggle, negb_involutive.
  - destruct (dropdowns !! j) as [cj|]; simpl; [|done].
    rewrite (bool_decide_eq_false_2 (Trigger i = Trigger j ∧ _)).
    + simpl. rewrite bool_decide_eq_false_2; simpl.
      * apply is_open_remove.
      * intros [[= ->] _]. done.
    + intros [[= ->] _]. done.
Qed.

Lemma trigger_twice_witness :
  open_at 0 (dispatch (Trigger 0)
               (dispatch (Trigger 0)
                  [Container true true {["active"%string]};
                   Container true true ∅]))
  = true.
Proof.
  rewrite (trigger_twice 0 0
             [Container true true {["active"%string]}; Container true true ∅]
             (Container true true {["active"%string]}) eq_refl eq_refl).
  by vm_compute.
Defined.

End DropdownMore.

(** ** More on debounce *)

Module DebounceMore.
Import Timers TimersFacts Debounce DebounceCalls TimerRange.
Local Open Scope nat_scope.

Section Facts.
Context {A Env : Type}.
Variable func : list A → Env → Env.
Variable wait : nat.

Lemma tracks_debounce t0 (s : Env) :
  tracks (A := A) None s t0 (debounce t0 s).
Proof. done. Qed.

(** An invocation replaces whatever was waiting. *)
Lemma tracks_invoke waiting s t st t' args :
  tracks waiting s t st → t ≤ t' →
  tracks (Some (t' + wait, args)) s t' (step func wait st (Invoke t' args)).
Proof.
  destruct st as [[t0 l n] ho s0]. intros (Hnow & Hs & Hw) Hle.
  simpl in Hnow, Hs, Hw. subst t0 s0.
  assert (pending (clearTimeout ho (Queue (t `max` t') l n)) = []) as Hcl.
  { destruct waiting as [[due args0]|].
    - destruct Hw as (h & -> & ->). simpl. apply unset_singleton_eq.
    - subst l. by destruct ho. }
  unfold step, executedFunction, with_timers, set_now. simpl.
  destruct (clearTimeout ho (Queue (t `max` t') l n)) as [t1 l1 n1] eqn:Hq.
  assert (t1 = t `max` t') as ->.
  { destruct ho; simpl in Hq; by injection Hq as <- _ _. }
  simpl in Hcl. subst l1. simpl.
  replace (t `max` t') with t' by lia.
  split; [done|]. split; [done|]. by exists n1.
Qed.

(** A turn of the loop answers the waiting invocation if its timer is
    due. *)
Lemma tracks_turn waiting s t st t' :
  tracks waiting s t st → t ≤ t' →
  match waiting with
  | Some (due, args) =>
      if due <=? t' then tracks None (func args s) t' (step func wait st (Turn t'))
      else tracks waiting s t' (step func wait st (Turn t'))
  | None => tracks None s t' (step func wait st (Turn t'))
  end.
Proof.
  destruct st as [[t0 l n] ho s0]. intros (Hnow & Hs & Hw) Hle.
  simpl in Hnow, Hs, Hw. subst t0 s0.
  destruct waiting as [[due args]|].
  - destruct Hw as (h & -> & ->).
    unfold step, advance, advance_to. simpl. unfold next_due. simpl.
    destruct (due <=? t') eqn:Hdue.
    + apply Nat.leb_le in Hdue.
      unfold fire, later, set_now. simpl. rewrite unset_singleton_eq.
      split; [simpl; lia|]. by split.
    + unfold set_now. split; [simpl; lia|]. split; [done|]. by exists h.
  - subst l. unfold step, advance, advance_to, set_now.
    split; [simpl; lia|]. by split.
Qed.

Lemma tracks_run_events es waiting s t st :
  tracks waiting s t st → ascending_from t es →
  surroundings (run_events func wait es st)
  = foldl (λ s a, func a s) s (calls wait waiting es)
  ∧ length (pending (timers (run_events func wait es st))) ≤ 1.
Proof.
  revert waiting s t st. induction es as [|e es IH];
    intros waiting s t st Htr Hasc.
  - destruct Htr as (_ & Hs & Hw). split; [done|]. simpl.
    destruct waiting as [[due args]|].
    + destruct Hw as (h & -> & _). done.
    + rewrite Hw. simpl. lia.
  - destruct Hasc as [Hle Hasc]. destruct e as [t' args|t'].
    + exact (IH _ _ _ _ (tracks_invoke _ _ _ _ t' args Htr Hle) Hasc).
    + pose proof (tracks_turn _ _ _ _ t' Htr Hle) as Hturn.
      cbn [run_events foldl calls]. destruct waiting as [[due args]|].
      * destruct (due <=? t'); exact (IH _ _ _ _ Hturn Hasc).
      * exact (IH _ _ _ _ Hturn Hasc).
Qed.

(** [Debounce.invocations] is the case in which the loop has had its turn
    just before every invocation. *)
Lemma invocations_run_events cs st :
  invocations func wait cs st
  = run_events func wait (flat_map (λ c, [Turn c.1; Invoke c.1 c.2]) cs) st.
Proof.
  revert st. induction cs as [|[t args] cs IH]; intros st; [done|].
  cbn [invocations flat_map app run_events foldl fst snd].
  rewrite IH. unfold run_events. f_equal.
  unfold step, advance, advance_to, with_timers, set_now. simpl.
  by rewrite <- Nat.max_assoc, Nat.max_id.
Qed.

End Facts.

(** X15: the wrapper is made at [t0]; then it is invoked and the event loop
    gets its turns, in any order in time.  [func] has been called for
    exactly the invocations that the loop reached at their due time or
    later before the next invocation came, in order, each with its own
    arguments; and at no time is more than one timer pending. *)
Theorem debounce_calls {A Env} (func : list A → Env → Env) (wait : nat)
    t0 s es :
  in_range wait →
  ascending_from t0 es →
  surroundings (run_events func wait es (debounce t0 s))
  = foldl (λ s a, func a s) s (calls wait None es)
  ∧ length (pending (timers (run_events func wait es (debounce t0 s)))) ≤ 1.
Proof.
  intros _ Hasc.
  exact (tracks_run_events func wait es None s t0 _ (tracks_debounce t0 s)
           Hasc).
Qed.

(** A function debounced by 200 ms.  The invocation at 150 ms replaces
    the one at 0 and is answered by the turn of the loop at 400 ms; of the
    two at 600 and 900 ms, between which the loop has no turn, only the
    second is.  And with a wait of 0, two invocations from one task make
    one call, with the arguments of the second. *)
Lemma debounce_calls_witness :
  surroundings
    (run_events (λ args log, log ++ [args]) 200
       [Invoke 0 [1]; Turn 100; Invoke 150 [2]; Turn 400; Invoke 600 [3];
        Invoke 900 [4]; Turn 1200]
       (debounce 0 []))
  = [[2]; [4]]
  ∧ surroundings
      (run_events (λ args log, log ++ [args]) 0
         [Invoke 0 [1]; Invoke 0 [2]; Turn 0] (debounce 0 []))
    = [[2]].
Proof.
  split.
  - etrans.
    + apply (debounce_calls (λ args log, log ++ [args]) 200 0 []
               [Invoke 0 [1]; Turn 100; Invoke 150 [2]; Turn 400;
                Invoke 600 [3]; Invoke 900 [4]; Turn 1200]).
      * unfold in_range, max_delay. lia.
      * simpl. lia.
    + reflexivity.
  - etrans.
    + apply (debounce_calls (λ args log, log ++ [args]) 0 0 []
               [Invoke 0 [1]; Invoke 0 [2]; Turn 0]).
      * unfold in_range, max_delay. lia.
      * simpl. lia.
    + reflexivity.
Defined.

End DebounceMore.

(** ** One timer among others *)

Module LoopMore.
Import Timers LoopFacts.
Local Open Scope nat_scope.

Section OneTimer.
Context {Cb W : Type} `{EqDecision Cb}.
Variable queue_of : W → queue Cb.
Variable with_queue : queue Cb → W → W.
Variable run : Cb → W → W.
Variable ours : timer Cb.
Variables Before After : W → Prop.

Hypothesis pending_fire : ∀ x w,
  pending (queue_of (fire queue_of with_queue run x w))
  = unset (id x) (pending (queue_of w)).
Hypothesis before_pending : ∀ w, Before w → ours ∈ pending (queue_of w).
Hypothesis before_other : ∀ w x,
  Before w → x ∈ pending (queue_of w) → x ≠ ours →
  Before (fire queue_of with_queue run x w).
Hypothesis before_ours : ∀ w,
  Before w → After (fire queue_of with_queue run ours w).
Hypothesis after_any : ∀ w x,
  After w → x ∈ pending (queue_of w) →
  After (fire queue_of with_queue run x w).

(** [Before] holds as long as [ours] is pending, [After] from the moment
    it has fired: when the loop has let the clock reach [t], which of the
    two holds is told by the due time of [ours]. *)
Lemma fire_due_one_timer t w :
  Before w →
  if due ours <=? t then
    After (fire_due queue_of with_queue run
             (length (pending (queue_of w))) t w)
  else
    Before (fire_due queue_of with_queue run
              (length (pending (queue_of w))) t w).
Proof.
  intros Hw. destruct (due ours <=? t) eqn:Hdue.
  - apply Nat.leb_le in Hdue.
    assert (Before (fire_due queue_of with_queue run
                      (length (pending (queue_of w))) t w)
            ∨ After (fire_due queue_of with_queue run
                       (length (pending (queue_of w))) t w)) as [Hb|Ha].
    { apply (fire_due_invariant queue_of with_queue run
               (λ w, Before w ∨ After w)); [|by left].
      intros w' x [Hb|Ha] [Hx _]%next_due_Some.
      - destruct (decide (x = ours)) as [->|Hne]; [right|left]; auto.
      - right. auto. }
    + pose proof (fire_due_done queue_of with_queue run pending_fire
                    (length (pending (queue_of w))) t w (le_n _)) as Hdone.
      pose proof (next_due_None _ _ _ Hdone (before_pending _ Hb)). lia.
    + done.
  - apply Nat.leb_gt in Hdue.
    apply (fire_due_invariant queue_of with_queue run Before); [|done].
    intros w' x Hb [Hx Hle]%next_due_Some.
    apply before_other; [done..|]. intros ->. lia.
Qed.

End OneTimer.

End LoopMore.

(** ** More on toasts *)

Module ToastMore.
Import Timers TimerRange LoopFacts LoopMore Page PageMore ToastFacts CopyFacts.
Local Open Scope nat_scope.

(** What [remove] does to the tree. *)

Lemma parent_of_remove_other el k p :
  k ≠ el → parent_of k (remove el p) = parent_of k p.
Proof.
  intros Hne. unfold remove.
  destruct (parent_of el p) as [parent|] eqn:Hp; [|done].
  unfold parent_of. simpl. rewrite lookup_alter_ne by done.
  rewrite lookup_alter. case_decide; [subst|done].
  by destruct (nodes p !! k).
Qed.

Lemma children_of_remove el k p :
  children_of k (remove el p)
  = if decide (parent_of el p = Some k)
    then filter (λ c, c ≠ el) (children_of k p)
    else children_of k p.
Proof.
  unfold remove. destruct (parent_of el p) as [parent|] eqn:Hp.
  - unfold children_of. simpl.
    assert (∀ (ns : gmap nat node),
              children <$> alter (set_parentElement None) el ns !! k
              = children <$> ns !! k) as Hset.
    { intros ns. rewrite lookup_alter. case_decide; [subst|done].
      by destruct (ns !! k). }
    rewrite Hset, lookup_alter.
    destruct (decide (parent = k)) as [->|Hne].
    + rewrite decide_True by done. by destruct (nodes p !! k).
    + rewrite decide_False by congruence. done.
  - by rewrite decide_False.
Qed.

Lemma elem_of_children_of_remove el k x p :
  x ∈ children_of k (remove el p) → x ∈ children_of k p.
Proof.
  rewrite children_of_remove. case_decide; [|done].
  by intros [_ ?]%list_elem_of_filter.
Qed.

Lemma elem_of_children_of_remove_other el k x p :
  x ≠ el → x ∈ children_of k p → x ∈ children_of k (remove el p).
Proof.
  intros Hne Hx. rewrite children_of_remove. case_decide; [|done].
  by apply list_elem_of_filter.
Qed.

(** What a callback does to the place of a toast in the tree. *)

Lemma parent_of_run cb el p :
  cb ≠ AutoRemove el → parent_of el (run cb p) = parent_of el p.
Proof.
  intros Hcb. destruct cb as [toast|this html]; unfold run; simpl.
  - unfold auto_remove. destruct (parent_of toast p) eqn:Hp; [|done].
    apply parent_of_remove_other. by intros ->.
  - unfold parent_of. simpl. rewrite lookup_alter.
    case_decide; [subst|done]. by destruct (nodes p !! el).
Qed.

Lemma parent_of_run_gone cb el p :
  parent_of el p = None → parent_of el (run cb p) = None.
Proof.
  intros Hgone. destruct (decide (cb = AutoRemove el)) as [->|Hne].
  - unfold run. simpl. unfold auto_remove. by rewrite Hgone.
  - by rewrite parent_of_run.
Qed.

Lemma children_of_run_subseteq cb k x p :
  x ∈ children_of k (run cb p) → x ∈ children_of k p.
Proof.
  destruct cb as [toast|this html]; unfold run; simpl.
  - unfold auto_remove. destruct (parent_of toast p); [|done].
    apply elem_of_children_of_remove.
  - unfold children_of. simpl. rewrite lookup_alter.
    case_decide; [subst|done]. by destruct (nodes p !! k).
Qed.

Lemma children_of_run_other cb k x p :
  cb ≠ AutoRemove x → x ∈ children_of k p → x ∈ children_of k (run cb p).
Proof.
  intros Hcb. destruct cb as [toast|this html]; unfold run; simpl.
  - unfold auto_remove. destruct (parent_of toast p); [|done].
    apply elem_of_children_of_remove_other. by intros ->.
  - unfold children_of. simpl. rewrite lookup_alter.
    case_decide; [subst|done]. by destruct (nodes p !! k).
Qed.

Section Lifetime.
Variable toast : nat.
Variable ours : timer callback.
Hypothesis ours_removes : Timers.callback ours = AutoRemove toast.

Lemma toast_shown_fire x p :
  toast_shown toast ours p →
  x ∈ pending (timers p) → x ≠ ours →
  toast_shown toast ours (fire timers with_timers run x p).
Proof.
  intros (Hparent & Hchild & Hours & Hothers) Hx Hne.
  destruct (Hothers x Hx Hne) as [Hid Hcb].
  split; [|split; [|split]].
  - unfold fire. by rewrite parent_of_run.
  - unfold fire. by apply children_of_run_other.
  - rewrite pending_fire. apply elem_of_unset.
    split; [by intros H; apply Hid | done].
  - intros y. rewrite pending_fire. intros [_ Hy]%elem_of_unset Hyne.
    by apply Hothers.
Qed.

Lemma toast_gone_fire_ours p :
  toast_shown toast ours p →
  toast_gone toast (fire timers with_timers run ours p).
Proof.
  intros (Hparent & Hchild & _). unfold fire, run. rewrite ours_removes.
  simpl. unfold auto_remove.
  change (parent_of toast (with_timers (take ours (timers p)) p))
    with (parent_of toast p).
  rewrite Hparent. split; [apply parent_of_remove|].
  rewrite children_of_remove.
  change (parent_of toast (with_timers (take ours (timers p)) p))
    with (parent_of toast p).
  rewrite decide_True by done. by intros [? _]%list_elem_of_filter.
Qed.

Lemma toast_gone_fire x p :
  toast_gone toast p → toast_gone toast (fire timers with_timers run x p).
Proof.
  intros [Hparent Hchild]. unfold fire. split.
  - by apply parent_of_run_gone.
  - intros H. by apply children_of_run_subseteq in H.
Qed.

Lemma toast_shown_advance t p :
  toast_shown toast ours p →
  if due ours <=? t then toast_gone toast (advance t p)
  else parent_of toast (advance t p) = Some body
       ∧ toast ∈ children_of body (advance t p).
Proof.
  intros Hp.
  pose proof (fire_due_one_timer timers with_timers run ours
                (toast_shown toast ours) (toast_gone toast) pending_fire
                (λ w Hw, proj1 (proj2 (proj2 Hw)))
                (λ w x Hw Hx Hne, toast_shown_fire x w Hw Hx Hne)
                toast_gone_fire_ours
                (λ w x Hw _, toast_gone_fire x w Hw) t p Hp) as H.
  destruct (due ours <=? t); [exact H|].
  destruct H as (H1 & H2 & _). by split.
Qed.

End Lifetime.

Lemma showToast_node message type duration p k :
  page_ok p → k < next_node p →
  nodes (showToast message type duration p) !! k
  = (if decide (k = body)
     then λ n, set_children (children n ++ [next_node p]) n
     else λ n, n) <$> nodes p !! k.
Proof.
  intros Hok Hk. unfold showToast, appendChild, set_toast_markup.
  cbn -[lit html getToastClasses getToastIcon toast_markup].
  rewrite lookup_alter_ne by lia.
  destruct (decide (k = body)) as [->|Hne].
  - rewrite lookup_alter_eq.
    rewrite !lookup_insert_ne by lia. rewrite !lookup_alter_ne by lia.
    by rewrite lookup_insert_ne by lia.
  - rewrite lookup_alter_ne by done.
    rewrite !lookup_insert_ne by lia. rewrite !lookup_alter_ne by lia.
    rewrite lookup_insert_ne by lia. by destruct (nodes p !! k).
Qed.

Lemma next_node_showToast message type duration p :
  next_node (showToast message type duration p) = S (S (S (next_node p))).
Proof. reflexivity. Qed.

Lemma showToast_fresh message type duration p k :
  page_ok p → S (S (S (next_node p))) ≤ k →
  nodes (showToast message type duration p) !! k = None.
Proof.
  intros Hok Hk. pose proof (body_lt_next_node p Hok) as Hlt.
  destruct Hok as [_ Hfresh].
  unfold showToast, appendChild, set_toast_markup.
  cbn -[lit html getToastClasses getToastIcon toast_markup].
  rewrite !lookup_alter_ne by lia. rewrite !lookup_insert_ne by lia.
  rewrite !lookup_alter_ne by lia. rewrite lookup_insert_ne by lia.
  apply Hfresh. lia.
Qed.

Lemma page_ok_showToast message type duration p :
  page_ok p → page_ok (showToast message type duration p).
Proof.
  intros Hok. pose proof (body_lt_next_node p Hok) as Hlt. split.
  - rewrite showToast_node by done. destruct Hok as [[b Hb] _].
    rewrite Hb. by eexists.
  - intros k Hk. rewrite next_node_showToast in Hk.
    by apply showToast_fresh.
Qed.

Lemma children_of_body_showToast message type duration p :
  page_ok p →
  children_of body (showToast message type duration p)
  = children_of body p ++ [next_node p].
Proof.
  intros Hok. pose proof (body_lt_next_node p Hok) as Hlt.
  unfold children_of. rewrite showToast_node by done.
  destruct Hok as [[b Hb] _]. rewrite Hb. by rewrite decide_True.
Qed.

(** X16: toasts stack.  For a message that is text, a [type] that is a
    key of the tables or names no property, and a [duration] in the range
    of a timer, [showToast] appends the new toast after the last child of
    the body, leaves every other element of the page exactly as it was, and
    sets one more timer, due after [duration] ms, behind the pending
    ones. *)
Theorem showToast_stacks message type duration p :
  page_ok p →
  plain_text message →
  own_or_absent type →
  in_range duration →
  children_of body (showToast message type duration p)
  = children_of body p ++ [next_node p]
  ∧ (∀ k, k < next_node p → k ≠ body →
       nodes (showToast message type duration p) !! k = nodes p !! k)
  ∧ (∃ toast,
       nodes (showToast message type duration p) !! next_node p = Some toast
       ∧ parentElement toast = Some body
       ∧ toast_of_type type toast
       ∧ innerHTML toast = toast_markup (getToastIcon type) message)
  ∧ pending (timers (showToast message type duration p))
    = pending (timers p)
      ++ [Timer (next_id (timers p)) (now (timers p) + duration)
                (AutoRemove (next_node p))]
  ∧ page_ok (showToast message type duration p).
Proof.
  intros Hok _ _ _. split; [by apply children_of_body_showToast|].
  split; [|split; [|split]].
  - intros k Hk Hne. rewrite showToast_node by done.
    rewrite decide_False by done. by destruct (nodes p !! k).
  - destruct (showToast_toast message type duration p Hok)
      as (toast & Ht & Hp & Hc & Hm).
    exists toast. split; [done|]. split; [done|]. split; [|done].
    split; [done|]. eauto.
  - by rewrite showToast_timers.
  - by apply page_ok_showToast.
Qed.

Lemma showToast_stacks_witness :
  children_of body
    (showToast (lit "Saved") (lit "success") 3000
       (showToast (lit "Welcome") (lit "info") 3000 (copy_page None [])))
  = [1; 2; 3; 6].
Proof.
  destruct (showToast_stacks (lit "Saved") (lit "success") 3000
              (showToast (lit "Welcome") (lit "info") 3000
                 (copy_page None []))
              (page_ok_showToast _ _ _ _ (page_ok_copy_page None [])))
    as (-> & _).
  - reflexivity.
  - refine (bool_decide_unpack _ _). by vm_compute.
  - unfold in_range, max_delay. lia.
  - by vm_compute.
Defined.

(** X17: for a [duration] in the range of a timer, a toast that is not
    dismissed stays in the body for [duration] ms and is out of the
    document from then on, whatever the other timers of the page do in the
    meantime. *)
Theorem toast_lifetime message type duration p T :
  page_ok p →
  queue_ok (timers p) →
  toasts_known p →
  in_range duration →
  if now (timers p) + duration <=? T then
    toast_gone (next_node p) (advance T (showToast message type duration p))
  else
    parent_of (next_node p) (advance T (showToast message type duration p))
    = Some body
    ∧ next_node p
      ∈ children_of body (advance T (showToast message type duration p)).
Proof.
  intros Hok Hq Hknown _.
  apply (toast_shown_advance (next_node p)
           (Timer (next_id (timers p)) (now (timers p) + duration)
                  (AutoRemove (next_node p))) eq_refl T).
  destruct (showToast_parents message type duration p Hok) as (Hparent & _).
  split; [done|]. split; [|split].
  - rewrite children_of_body_showToast by done.
    apply elem_of_app. right. by apply list_elem_of_singleton.
  - rewrite showToast_timers. cbn [pending].
    apply elem_of_app. right. by apply list_elem_of_singleton.
  - rewrite showToast_timers. cbn [pending id].
    intros x [Hx | ->%list_elem_of_singleton]%elem_of_app Hne; [|done].
    split; [specialize (Hq x Hx); lia|].
    intros Hcb. specialize (Hknown x _ Hx Hcb). lia.
Qed.

Lemma toasts_known_idle ns n t c : toasts_known (Page ns n (idle t) c).
Proof. intros x toast Hx. by apply elem_of_nil in Hx. Qed.

Lemma toast_lifetime_witness :
  parent_of 3 (advance 2999 (showToast (lit "Saved") (lit "success") 3000
                               (copy_page None [])))
  = Some body
  ∧ toast_gone 3 (advance 3000 (showToast (lit "Saved") (lit "success") 3000
                                  (copy_page None []))).
Proof.
  assert (in_range 3000) as Hr by (unfold in_range, max_delay; lia).
  split.
  - apply (toast_lifetime (lit "Saved") (lit "success") 3000
             (copy_page None []) 2999 (page_ok_copy_page _ _)
             (queue_ok_idle 0) (toasts_known_idle _ _ _ _) Hr).
  - apply (toast_lifetime (lit "Saved") (lit "success") 3000
             (copy_page None []) 3000 (page_ok_copy_page _ _)
             (queue_ok_idle 0) (toasts_known_idle _ _ _ _) Hr).
Defined.

(** [remove] changes the place of elements in the tree and nothing else
    of them. *)
Lemma remove_node el k p :
  match nodes p !! k with
  | Some n =>
      ∃ n', nodes (remove el p) !! k = Some n'
            ∧ className n' = className n
            ∧ innerHTML n' = innerHTML n
            ∧ textContent n' = textContent n
            ∧ (k ≠ el → parentElement n' = parentElement n)
  | None => nodes (remove el p) !! k = None
  end.
Proof.
  unfold remove. destruct (parent_of el p) as [parent|].
  - simpl. rewrite !lookup_alter.
    destruct (nodes p !! k) as [n|] eqn:Hn.
    + repeat case_decide; subst; rewrite ?Hn; simpl;
        eexists; (split; [done|]); by repeat split.
    + by repeat case_decide; subst; rewrite ?Hn.
  - destruct (nodes p !! k) as [n|]; [|done]. exists n. by repeat split.
Qed.

Lemma page_ok_remove el p : page_ok p → page_ok (remove el p).
Proof.
  intros [[b Hb] Hfresh]. split.
  - pose proof (remove_node el body p) as H. rewrite Hb in H.
    destruct H as (n' & -> & _). by eexists.
  - intros k Hk. pose proof (remove_node el k p) as H.
    assert (next_node (remove el p) = next_node p) as Hn.
    { unfold remove. by destruct (parent_of el p). }
    rewrite Hn in Hk. by rewrite (Hfresh k Hk) in H.
Qed.

Lemma next_node_remove el p : next_node (remove el p) = next_node p.
Proof. unfold remove. by destruct (parent_of el p). Qed.

Lemma timers_remove el p : timers (remove el p) = timers p.
Proof. unfold remove. by destruct (parent_of el p). Qed.

Lemma initializeToasts_snoc l m p :
  initializeToasts (l ++ [m]) p = flash (initializeToasts l p) m.
Proof. unfold initializeToasts. by rewrite foldl_app. Qed.

(** What one flash message leaves of an element that was there before. *)
Lemma flash_node q m lvl k n :
  page_ok q → nodes q !! k = Some n → k ≠ body →
  ∃ n', nodes (flash q (m, lvl)) !! k = Some n'
        ∧ className n' = className n
        ∧ innerHTML n' = innerHTML n
        ∧ textContent n' = textContent n
        ∧ (k ≠ m → parentElement n' = parentElement n).
Proof.
  intros Hok Hn Hne. unfold flash.
  pose proof (lt_next_node _ _ _ Hok Hn) as Hk.
  pose proof (remove_node m k
                (showToast (textContent_of m q) (default default_type lvl)
                           default_duration q)) as H.
  rewrite showToast_node, decide_False, Hn in H by done.
  exact H.
Qed.

Lemma flash_removes q m lvl :
  parent_of m (flash q (m, lvl)) = None.
Proof. unfold flash. apply parent_of_remove. Qed.

Lemma flash_toast q m lvl :
  page_ok q → m < next_node q →
  ∃ toast,
    nodes (flash q (m, lvl)) !! next_node q = Some toast
    ∧ parentElement toast = Some body
    ∧ className toast
      = lit "toast " ++ getToastClasses (default default_type lvl)
    ∧ innerHTML toast
      = toast_markup (getToastIcon (default default_type lvl))
                     (textContent_of m q).
Proof.
  intros Hok Hm. unfold flash.
  destruct (showToast_toast (textContent_of m q) (default default_type lvl)
              default_duration q Hok) as (toast & Ht & Hp & Hc & Hh).
  pose proof (remove_node m (next_node q)
                (showToast (textContent_of m q) (default default_type lvl)
                           default_duration q)) as H.
  rewrite Ht in H. destruct H as (n' & Hn' & Hc' & Hh' & _ & Hp').
  exists n'. split; [done|].
  rewrite Hp', Hc', Hh' by lia. done.
Qed.

Lemma page_ok_flash q m : page_ok q → page_ok (flash q m).
Proof.
  intros Hok. destruct m as [m lvl]. unfold flash.
  by apply page_ok_remove, page_ok_showToast.
Qed.

Lemma next_node_flash q m : next_node (flash q m) = S (S (S (next_node q))).
Proof. destruct m as [m lvl]. unfold flash. by rewrite next_node_remove. Qed.

Lemma pending_flash q m :
  length (pending (timers (flash q m))) = S (length (pending (timers q))).
Proof.
  destruct m as [m lvl]. unfold flash.
  rewrite timers_remove, showToast_timers. cbn [pending].
  rewrite length_app. simpl. lia.
Qed.

Lemma initializeToasts_invariant messages p :
  page_ok p →
  (∀ m lvl, (m, lvl) ∈ messages → m < next_node p ∧ m ≠ body) →
  page_ok (initializeToasts messages p)
  ∧ next_node (initializeToasts messages p)
    = next_node p + 3 * length messages
  ∧ length (pending (timers (initializeToasts messages p)))
    = length (pending (timers p)) + length messages
  ∧ (∀ k, k < next_node p → k ≠ body →
       textContent <$> nodes (initializeToasts messages p) !! k
       = textContent <$> nodes p !! k)
  ∧ (∀ m lvl, (m, lvl) ∈ messages →
       parent_of m (initializeToasts messages p) = None)
  ∧ (∀ i m lvl, messages !! i = Some (m, lvl) →
       ∃ toast,
         nodes (initializeToasts messages p) !! (next_node p + 3 * i)
         = Some toast
         ∧ parentElement toast = Some body
         ∧ className toast
           = lit "toast " ++ getToastClasses (default default_type lvl)
         ∧ innerHTML toast
           = toast_markup (getToastIcon (default default_type lvl))
                          (textContent_of m p)).
Proof.
  intros Hok. induction messages as [|[m lvl] l IH] using rev_ind;
    intros Hmsgs.
  - split; [done|]. split; [simpl; lia|]. split; [simpl; lia|].
    split; [done|]. split.
    + intros m lvl H. by apply elem_of_nil in H.
    + intros i m lvl H. by rewrite lookup_nil in H.
  - destruct IH as (Hok' & Hnext & Hpend & Htext & Hgone & Htoasts).
    { intros m' lvl' H. apply (Hmsgs m' lvl'). apply elem_of_app. by left. }
    destruct (Hmsgs m lvl) as [Hm Hmb].
    { apply elem_of_app. right. by apply list_elem_of_singleton. }
    rewrite initializeToasts_snoc.
    set (q := initializeToasts l p) in *.
    split; [by apply page_ok_flash|].
    split; [rewrite next_node_flash, Hnext, length_app; simpl; lia|].
    split; [rewrite pending_flash, Hpend, length_app; simpl; lia|].
    split; [|split].
    + intros k Hk Hkb. rewrite <- Htext by done.
      destruct (nodes q !! k) as [n|] eqn:Hn.
      * destruct (flash_node q m lvl k n Hok' Hn Hkb)
          as (n' & -> & _ & _ & Ht & _). simpl. by rewrite Ht.
      * unfold flash.
        pose proof (remove_node m k
                      (showToast (textContent_of m q)
                                 (default default_type lvl)
                                 default_duration q)) as H.
        rewrite showToast_node, decide_False, Hn in H by (done || lia).
        simpl in H. by rewrite H.
    + intros m' lvl' [Hin | [= -> ->]%list_elem_of_singleton]%elem_of_app;
        [|apply flash_removes].
      destruct (decide (m' = m)) as [->|Hne]; [apply flash_removes|].
      destruct (Hmsgs m' lvl') as [Hm' Hmb'].
      { apply elem_of_app. by left. }
      specialize (Hgone m' lvl' Hin). unfold parent_of in *.
      destruct (nodes q !! m') as [n|] eqn:Hn.
      * destruct (flash_node q m lvl m' n Hok' Hn Hmb')
          as (n' & -> & _ & _ & _ & Hp). simpl in *. by rewrite Hp.
      * unfold flash.
        pose proof (remove_node m m'
                      (showToast (textContent_of m q)
                                 (default default_type lvl)
                                 default_duration q)) as H.
        rewrite showToast_node, decide_False, Hn in H by (done || lia).
        simpl in H. by rewrite H.
    + intros i m' lvl' Hi.
      destruct (decide (i < length l)) as [Hlt|Hge].
      * rewrite lookup_app_l in Hi by done.
        destruct (Htoasts i m' lvl' Hi) as (toast & Ht & Hp & Hc & Hh).
        assert (i * 3 + 3 ≤ 3 * length l) by lia.
        destruct (flash_node q m lvl _ toast Hok' Ht)
          as (n' & Hn' & Hc' & Hh' & _ & Hp'); [unfold body; lia|].
        exists n'. split; [done|].
        rewrite Hp', Hc', Hh' by lia. done.
      * rewrite lookup_app_r in Hi by lia.
        assert (i = length l) as ->.
        { apply lookup_lt_Some in Hi. simpl in Hi. lia. }
        rewrite Nat.sub_diag in Hi. injection Hi as <- <-.
        rewrite <- Hnext.
        destruct (flash_toast q m lvl Hok') as (toast & Ht & Hp & Hc & Hh);
          [lia|].
        exists toast. split; [done|]. split; [done|]. split; [done|].
        rewrite Hh. f_equal. unfold textContent_of.
        by rewrite Htext.
Qed.

(** X18: at start-up every flash message of the page becomes a toast and
    is itself removed.  The messages are elements of the page other than
    the body, each holding text and with a level, if it has one, that is a
    key of the tables or names no property; afterwards each of them is
    detached, and for the [i]-th one there is a toast in the body, made in
    that order, with the text of the message and the styling of its level
    ([info] when it has none); one timer is set for each. *)
Theorem initializeToasts_spec messages p :
  page_ok p →
  (∀ m lvl, (m, lvl) ∈ messages → m < next_node p ∧ m ≠ body) →
  (∀ m lvl, (m, lvl) ∈ messages → plain_text (textContent_of m p)) →
  (∀ m lvl, (m, Some lvl) ∈ messages → own_or_absent lvl) →
  (∀ m lvl, (m, lvl) ∈ messages →
     parent_of m (initializeToasts messages p) = None)
  ∧ (∀ i m lvl, messages !! i = Some (m, lvl) →
       ∃ toast,
         nodes (initializeToasts messages p) !! (next_node p + 3 * i)
         = Some toast
         ∧ parentElement toast = Some body
         ∧ className toast
           = lit "toast " ++ getToastClasses (default default_type lvl)
         ∧ innerHTML toast
           = toast_markup (getToastIcon (default default_type lvl))
                          (textContent_of m p))
  ∧ length (pending (timers (initializeToasts messages p)))
    = length (pending (timers p)) + length messages.
Proof.
  intros Hok Hmsgs _ _.
  destruct (initializeToasts_invariant messages p Hok Hmsgs)
    as (_ & _ & Hpend & _ & Hgone & Htoasts).
  by split; [|split].
Qed.

Lemma initializeToasts_spec_witness :
  parent_of 1 (initializeToasts [(1, Some (lit "success")); (2, None)]
                 (copy_page None (lit "Profile saved")))
  = None
  ∧ length (pending (timers
              (initializeToasts [(1, Some (lit "success")); (2, None)]
                 (copy_page None (lit "Profile saved")))))
    = 2.
Proof.
  destruct (initializeToasts_spec [(1, Some (lit "success")); (2, None)]
              (copy_page None (lit "Profile saved"))
              (page_ok_copy_page _ _)) as (Hgone & _ & Hpend).
  - intros m lvl H. apply list_elem_of_In in H. simpl in H.
    destruct H as [[= <- <-] | [[= <- <-] | []]]; vm_compute; lia.
  - intros m lvl H. apply list_elem_of_In in H. simpl in H.
    destruct H as [[= <- <-] | [[= <- <-] | []]]; by vm_compute.
  - intros m lvl H. apply list_elem_of_In in H. simpl in H.
    destruct H as [[= <- <-] | [[=] | []]].
    refine (bool_decide_unpack _ _). by vm_compute.
  - split; [|exact Hpend]. apply (Hgone 1 (Some (lit "success"))). by left.
Defined.

End ToastMore.

(** ** More on the copy controls *)

Module CopyMore.
Import Timers LoopFacts Page PageMore CopyInit ToastFacts CopyFacts.
Local Open Scope nat_scope.

Lemma restored_advance this content t p :
  restored this content p →
  innerHTML_of this (advance t p) = content.
Proof.
  intros Hp. rewrite innerHTML_of_advance.
  assert (restored this content
            (fire_due timers with_timers run
               (length (pending (timers p))) t p)) as [H _]; [|done].
  apply fire_due_invariant; [|done].
  intros w x Hw [Hx _]%next_due_Some. by apply restored_fire.
Qed.

(** X19: when the clipboard write is rejected, a toast of type [error]
    with the message "Failed to copy to clipboard" is shown and nothing
    else happens: the clipboard is what it was, no timer is set for the
    control, and the control keeps its content, then and later. *)
Theorem copy_failure this text control p :
  page_ok p →
  no_restore_pending this (timers p) →
  nodes p !! this = Some control →
  clipboard (copy_resume this text false p) = clipboard p
  ∧ (∃ toast,
       nodes (copy_resume this text false p) !! next_node p = Some toast
       ∧ parentElement toast = Some body
       ∧ className toast = lit "toast " ++ getToastClasses (lit "error")
       ∧ innerHTML toast
         = toast_markup (getToastIcon (lit "error"))
                        (lit "Failed to copy to clipboard"))
  ∧ pending (timers (copy_resume this text false p))
    = pending (timers p)
      ++ [Timer (next_id (timers p)) (now (timers p) + default_duration)
                (AutoRemove (next_node p))]
  ∧ ∀ T, innerHTML_of this (advance T (copy_resume this text false p))
         = innerHTML control.
Proof.
  intros Hok Hnone Hthis.
  change (copy_resume this text false p)
    with (showToast (lit "Failed to copy to clipboard") (lit "error")
                    default_duration p).
  split; [done|]. split; [by apply showToast_toast|].
  split; [by rewrite showToast_timers|].
  intros T. apply restored_advance. split.
  - unfold innerHTML_of.
    rewrite showToast_lookup by (done || by eapply lt_next_node).
    by rewrite Hthis.
  - intros x html. rewrite showToast_timers. cbn [pending].
    intros [Hx | ->%list_elem_of_singleton]%elem_of_app; [|done].
    by apply Hnone.
Qed.

Lemma copy_failure_witness :
  innerHTML_of 2
    (advance 5000
       (copy_resume 2 (lit "https://cc.example/ref/abc") false
          (referral_page (lit "https://cc.example/ref/abc"))))
  = lit "Copy".
Proof.
  destruct (copy_failure 2 (lit "https://cc.example/ref/abc")
              (Node (Some body) [] [] (lit "Copy") None (lit "Copy")
                    (Some (lit "#ref")))
              (referral_page (lit "https://cc.example/ref/abc"))
              (page_ok_copy_page _ _) (no_restore_pending_idle 2 0) eq_refl)
    as (_ & _ & _ & H).
  apply (H 5000).
Defined.

Lemma elem_of_copyButtons btn p :
  btn ∈ copyButtons p
  ↔ ∃ n, nodes p !! btn = Some n ∧ has_data_copy n = true.
Proof.
  unfold copyButtons. rewrite elem_of_dom. split.
  - intros [n [Hn Hc]%map_lookup_filter_Some]. eauto.
  - intros (n & Hn & Hc). exists n. by apply map_lookup_filter_Some.
Qed.

Lemma has_data_copy_spec n :
  has_data_copy n = true ↔ is_Some (data_copy n).
Proof.
  unfold has_data_copy. destruct (data_copy n) as [s|]; split; intros H.
  - by eexists.
  - done.
  - done.
  - by destruct H.
Qed.

Lemma wire_referral_keeps p input btn s :
  nodes p !! btn ≫= data_copy = Some s →
  nodes (wire_referral p input) !! btn ≫= data_copy = Some s.
Proof.
  intros H. destruct input as [id [b|]]; [|done]. simpl.
  destruct (nodes p !! b) as [n|] eqn:Hn; [|done].
  destruct (has_data_copy n) eqn:Hc; [done|]. simpl.
  destruct (decide (b = btn)) as [->|Hne].
  - rewrite Hn in H. simpl in H. unfold has_data_copy in Hc.
    by rewrite H in Hc.
  - by rewrite lookup_insert_ne.
Qed.

Lemma wire_referral_lookup p input btn n :
  nodes p !! btn = Some n →
  ∃ n', nodes (wire_referral p input) !! btn = Some n'.
Proof.
  intros H. destruct input as [id [b|]]; [|eauto]. simpl.
  destruct (nodes p !! b) as [nb|] eqn:Hn; [|eauto].
  destruct (has_data_copy nb); [eauto|]. simpl.
  destruct (decide (b = btn)) as [->|Hne].
  - rewrite lookup_insert_eq. eauto.
  - rewrite lookup_insert_ne by done. eauto.
Qed.

Lemma wire_referral_wires p id btn n :
  nodes p !! btn = Some n →
  is_Some (nodes (wire_referral p (id, Some btn)) !! btn ≫= data_copy).
Proof.
  intros Hn. simpl. rewrite Hn.
  destruct (has_data_copy n) eqn:Hc.
  - rewrite Hn. simpl. by apply has_data_copy_spec.
  - simpl. rewrite lookup_insert_eq. by eexists.
Qed.

Lemma foldl_wire_referral_keeps inputs p btn s :
  nodes p !! btn ≫= data_copy = Some s →
  nodes (foldl wire_referral p inputs) !! btn ≫= data_copy = Some s.
Proof.
  revert p. induction inputs as [|input inputs IH]; intros p H; [done|].
  simpl. by apply IH, wire_referral_keeps.
Qed.

Lemma foldl_wire_referral_wires inputs p id btn n :
  (id, Some btn) ∈ inputs →
  nodes p !! btn = Some n →
  is_Some (nodes (foldl wire_referral p inputs) !! btn ≫= data_copy).
Proof.
  revert p n. induction inputs as [|input inputs IH]; intros p n Hin Hn.
  - by apply elem_of_nil in Hin.
  - simpl. apply elem_of_cons in Hin as [<-|Hin].
    + destruct (wire_referral_wires p id btn n Hn) as [s Hs].
      exists s. by apply foldl_wire_referral_keeps.
    + destruct (wire_referral_lookup p input btn n Hn) as [n' Hn'].
      by eapply IH.
Qed.

(** X20: the listener goes to the elements that carry [data-copy] when the
    script starts, and the referral inputs are looked at afterwards.  A
    button without the attribute in the markup gets it from the referral
    input next to it, but it has no listener and a click on it does
    nothing; a button that has the attribute keeps the one it has. *)
Theorem referral_button_has_no_listener querySelector referralInputs p :
  (∀ btn n, nodes p !! btn = Some n → data_copy n = None →
     (btn ∉ (initializeCopyButtons referralInputs p).1)
     ∧ ∀ q, click_on querySelector
              (initializeCopyButtons referralInputs p).1 btn q = Done)
  ∧ (∀ id btn n, (id, Some btn) ∈ referralInputs →
       nodes p !! btn = Some n → data_copy n = None →
       is_Some (nodes (initializeCopyButtons referralInputs p).2 !! btn
                ≫= data_copy))
  ∧ (∀ btn s, nodes p !! btn ≫= data_copy = Some s →
       btn ∈ (initializeCopyButtons referralInputs p).1
       ∧ nodes (initializeCopyButtons referralInputs p).2 !! btn
         ≫= data_copy = Some s).
Proof.
  unfold initializeCopyButtons. cbn [fst snd]. split; [|split].
  - intros btn n Hn Hnone.
    assert (btn ∉ copyButtons p) as Hnot.
    { intros (n' & Hn' & Hc)%elem_of_copyButtons.
      rewrite Hn in Hn'. injection Hn' as <-.
      unfold has_data_copy in Hc. by rewrite Hnone in Hc. }
    split; [done|]. intros q. unfold click_on.
    by rewrite bool_decide_eq_false_2.
  - intros id btn n Hin Hn _. by eapply foldl_wire_referral_wires.
  - intros btn s Hs. split; [|by apply foldl_wire_referral_keeps].
    apply elem_of_copyButtons.
    destruct (nodes p !! btn) as [n|]; [|done]. simpl in Hs.
    exists n. split; [done|]. unfold has_data_copy. by rewrite Hs.
Qed.

Lemma referral_button_has_no_listener_witness :
  nodes (initializeCopyButtons [(lit "ref", Some 2)] referral_markup).2 !! 2
  ≫= data_copy = Some (lit "#ref")
  ∧ click_on referral_select
      (initializeCopyButtons [(lit "ref", Some 2)] referral_markup).1 2
      (initializeCopyButtons [(lit "ref", Some 2)] referral_markup).2
    = Done.
Proof.
  split; [by vm_compute|].
  apply (proj1 (referral_button_has_no_listener referral_select
                  [(lit "ref", Some 2)] referral_markup) 2
               (Node (Some body) [] [] (lit "Copy") None (lit "Copy") None)
               eq_refl eq_refl).
Defined.

End CopyMore.

(** ** The mobile menu *)

Module MobileMenuFacts.
Import MobileMenu.

Lemma toggle_toggle cls (cl : gset string) : toggle cls (toggle cls cl) = cl.
Proof.
  unfold toggle. destruct (bool_decide (cls ∈ cl)) eqn:Hin.
  - apply bool_decide_eq_true in Hin.
    rewrite bool_decide_eq_false_2.
    + apply set_eq. intros x.
      rewrite elem_of_union, elem_of_difference, elem_of_singleton.
      destruct (decide (x = cls)) as [->|]; tauto.
    + rewrite elem_of_difference, elem_of_singleton. tauto.
  - apply bool_decide_eq_false in Hin.
    rewrite bool_decide_eq_true_2.
    + apply set_eq. intros x.
      rewrite elem_of_difference, elem_of_union, elem_of_singleton.
      split; [tauto|]. intros Hx. split; [tauto|]. by intros ->.
    + rewrite elem_of_union, elem_of_singleton. tauto.
Qed.

Lemma hidden_toggle (cl : gset string) :
  hidden (toggle "hidden" cl) ↔ ¬ hidden cl.
Proof.
  unfold hidden, toggle. destruct (bool_decide _) eqn:Hin.
  - apply bool_decide_eq_true in Hin.
    rewrite elem_of_difference, elem_of_singleton. tauto.
  - apply bool_decide_eq_false in Hin.
    rewrite elem_of_union, elem_of_singleton. tauto.
Qed.

Lemma hidden_singleton : hidden {["hidden"%string]}.
Proof. unfold hidden. by apply elem_of_singleton. Qed.

Lemma not_hidden_empty : ¬ hidden ∅.
Proof. unfold hidden. by intros ?%elem_of_empty. Qed.

(** X21: a second click on the toggle control undoes the first: panel and
    icons are exactly as they were.  And whatever is clicked, if one of the
    two icons was displayed and the other hidden, that is still so. *)
Theorem toggle_click_twice st :
  click OnToggle (click OnToggle st) = st
  ∧ ∀ target, one_icon_shown st → one_icon_shown (click target st).
Proof.
  split.
  - unfold click, document_listener, button_listener.
    destruct st as [m [o|] [c|]]; simpl; by rewrite !toggle_toggle.
  - intros target Hone. destruct target; try done.
    intros o' c'. unfold click, document_listener, button_listener.
    destruct st as [m [o|] [c|]]; simpl; try done.
    intros [= <-] [= <-]. rewrite !hidden_toggle.
    specialize (Hone o c eq_refl eq_refl). tauto.
Qed.

Lemma toggle_click_twice_witness :
  one_icon_shown
    (click OnToggle
       (State {["hidden"%string]} (Some ∅) (Some {["hidden"%string]}))).
Proof.
  apply (proj2 (toggle_click_twice
                  (State {["hidden"%string]} (Some ∅)
                         (Some {["hidden"%string]})))).
  intros o c [= <-] [= <-].
  split; [by intros ?%not_hidden_empty|]. intros H. destruct H.
  exact hidden_singleton.
Defined.

(** X22: a click outside the toggle control and the panel hides the panel
    and leaves the icons alone; a click in the panel changes nothing.  So
    on a menu opened with the toggle control and closed by a click
    outside, the panel is hidden while the icons still say "open": the one
    for opening is hidden and the one for closing is displayed. *)
Theorem outside_click_leaves_icons st :
  (hidden (mobileMenu (click Outside st))
   ∧ openIcon (click Outside st) = openIcon st
   ∧ closeIcon (click Outside st) = closeIcon st)
  ∧ click InPanel st = st
  ∧ ∀ o c,
      openIcon st = Some o → closeIcon st = Some c →
      hidden (mobileMenu st) → ¬ hidden o → hidden c →
      hidden (mobileMenu (click Outside (click OnToggle st)))
      ∧ ∃ o' c',
          openIcon (click Outside (click OnToggle st)) = Some o'
          ∧ closeIcon (click Outside (click OnToggle st)) = Some c'
          ∧ hidden o' ∧ ¬ hidden c'.
Proof.
  assert (∀ st', hidden (mobileMenu (click Outside st'))) as Hout.
  { intros st'. unfold hidden. simpl.
    rewrite elem_of_union, elem_of_singleton. tauto. }
  split; [by split|]. split; [done|].
  intros o c Ho Hc Hm Hno Hhc. split; [apply Hout|].
  unfold click, document_listener, button_listener. rewrite Ho, Hc. simpl.
  eexists _, _. split; [done|]. split; [done|].
  rewrite !hidden_toggle. tauto.
Qed.

Lemma outside_click_leaves_icons_witness :
  hidden (mobileMenu
            (click Outside
               (click OnToggle
                  (State {["hidden"%string]} (Some ∅)
                         (Some {["hidden"%string]})))))
  ∧ ∃ o' c',
      openIcon (click Outside
                  (click OnToggle
                     (State {["hidden"%string]} (Some ∅)
                            (Some {["hidden"%string]}))))
      = Some o'
      ∧ closeIcon (click Outside
                     (click OnToggle
                        (State {["hidden"%string]} (Some ∅)
                               (Some {["hidden"%string]}))))
        = Some c'
      ∧ hidden o' ∧ ¬ hidden c'.
Proof.
  apply (proj2 (proj2 (outside_click_leaves_icons
                         (State {["hidden"%string]} (Some ∅)
                                (Some {["hidden"%string]}))))
               ∅ {["hidden"%string]} eq_refl eq_refl).
  - exact hidden_singleton.
  - exact not_hidden_empty.
  - exact hidden_singleton.
Defined.

End MobileMenuFacts.

(** ** Progress bars *)

Module ProgressFacts.
Import Timers LoopFacts LoopMore Progress.
Local Open Scope nat_scope.

Section Style.
Variable valid_width : jstr → bool.

Lemma timers_run_reveal cb p : timers (run valid_width cb p) = timers p.
Proof. by destruct cb. Qed.

Lemma pending_fire_reveal x p :
  pending (timers (fire timers with_timers (run valid_width) x p))
  = unset (id x) (pending (timers p)).
Proof. unfold fire. by rewrite timers_run_reveal. Qed.

Lemma width_of_run_other cb b p :
  (∀ w, cb ≠ Reveal b w) →
  bars (run valid_width cb p) !! b = bars p !! b.
Proof.
  intros Hcb. destruct cb as [b' w]. simpl.
  rewrite lookup_alter_ne; [done|]. intros ->. by eapply Hcb.
Qed.

Lemma width_of_run_reveal b w p :
  valid_width (w ++ lit "%") = true →
  is_Some (bars p !! b) →
  width_of b (run valid_width (Reveal b w) p) = w ++ lit "%".
Proof.
  intros Hvalid [bar0 Hb]. unfold width_of. simpl.
  rewrite lookup_alter_eq, Hb. simpl. unfold set_width. by rewrite Hvalid.
Qed.

Section Reveal.
Variable b : nat.
Variable ours : timer callback.
Variable w : jstr.
Hypothesis ours_reveals : Timers.callback ours = Reveal b w.
Hypothesis w_valid : valid_width (w ++ lit "%") = true.

Lemma at_zero_fire x p :
  at_zero b ours p →
  x ∈ pending (timers p) → x ≠ ours →
  at_zero b ours (fire timers with_timers (run valid_width) x p).
Proof.
  intros (Hsome & Hwidth & Hours & Hothers) Hx Hne.
  destruct (Hothers x Hx Hne) as [Hid Hcb].
  assert (bars (fire timers with_timers (run valid_width) x p) !! b
          = bars p !! b) as Heq.
  { unfold fire. by rewrite width_of_run_other. }
  split; [by rewrite Heq|]. split.
  { unfold width_of in *. by rewrite Heq. }
  rewrite pending_fire_reveal. split.
  - apply elem_of_unset. split; [by intros H; apply Hid | done].
  - intros y [_ Hy]%elem_of_unset Hyne. by apply Hothers.
Qed.

Lemma revealed_fire_ours p :
  at_zero b ours p →
  revealed b (w ++ lit "%")
           (fire timers with_timers (run valid_width) ours p).
Proof.
  intros (Hsome & Hwidth & Hours & Hothers). split.
  - unfold fire. rewrite ours_reveals. by apply width_of_run_reveal.
  - intros y w'. rewrite pending_fire_reveal. intros [Hid Hy]%elem_of_unset.
    destruct (decide (y = ours)) as [->|Hne]; [done|].
    by apply Hothers.
Qed.

Lemma revealed_fire x p :
  revealed b (w ++ lit "%") p →
  x ∈ pending (timers p) →
  revealed b (w ++ lit "%")
           (fire timers with_timers (run valid_width) x p).
Proof.
  intros [Hwidth Hnone] Hx. split.
  - rewrite <- Hwidth. unfold width_of, fire.
    rewrite width_of_run_other; [done|]. intros w'. by apply Hnone.
  - intros y w'. rewrite pending_fire_reveal. intros [_ Hy]%elem_of_unset.
    by apply Hnone.
Qed.

Lemma at_zero_advance t p :
  at_zero b ours p →
  width_of b (advance valid_width t p)
  = if due ours <=? t then w ++ lit "%" else lit "0%".
Proof.
  intros Hp.
  pose proof (fire_due_one_timer timers with_timers (run valid_width) ours
                (at_zero b ours) (revealed b (w ++ lit "%")) pending_fire_reveal
                (λ p' Hp', proj1 (proj2 (proj2 Hp')))
                (λ p' x Hp' Hx Hne, at_zero_fire x p' Hp' Hx Hne)
                revealed_fire_ours
                (λ p' x Hp' Hx, revealed_fire x p' Hp' Hx) t p Hp) as H.
  change (width_of b (advance valid_width t p))
    with (width_of b (fire_due timers with_timers (run valid_width)
                        (length (pending (timers p))) t p)).
  destruct (due ours <=? t).
  - by destruct H.
  - by destruct H as (_ & H & _).
Qed.

End Reveal.
End Style.

(** X23: when a progress bar comes into view its width goes to 0% at once
    and, 100 ms later, to the percentage of [data-progress] (to 0% when the
    attribute is missing or empty); an entry that is not intersecting
    changes nothing.  The bar exists, no reveal of it is pending, and the
    two widths are widths the style accepts. *)
Theorem progress_reveal valid_width b bar0 p T :
  bars p !! b = Some bar0 →
  valid_width (lit "0%") = true →
  valid_width (targetWidth_of (Some bar0) ++ lit "%") = true →
  queue_ok (timers p) →
  no_reveal_pending b (timers p) →
  width_of b (advance valid_width T (on_entry valid_width p (Entry b true)))
  = (if now (timers p) + 100 <=? T
     then targetWidth_of (Some bar0) ++ lit "%"
     else lit "0%")
  ∧ on_entry valid_width p (Entry b false) = p
  ∧ (data_progress bar0 = None ∨ data_progress bar0 = Some [] →
     targetWidth_of (Some bar0) = lit "0").
Proof.
  intros Hb H0 Hw Hq Hnone. split; [|split; [done|]].
  - rewrite (at_zero_advance valid_width b
               (Timer (next_id (timers p)) (now (timers p) + 100)
                      (Reveal b (targetWidth_of (Some bar0))))
               (targetWidth_of (Some bar0)) eq_refl Hw); [done|].
    unfold on_entry. cbn [isIntersecting target]. rewrite Hb.
    split; [|split; [|split]].
    + cbn [bars with_timers with_bars setTimeout]. rewrite lookup_alter_eq, Hb.
      by eexists.
    + unfold width_of. cbn [bars with_timers with_bars setTimeout].
      rewrite lookup_alter_eq, Hb. simpl. unfold set_width. by rewrite H0.
    + cbn [timers with_timers with_bars setTimeout pending].
      apply elem_of_app. right. by apply list_elem_of_singleton.
    + cbn [timers with_timers with_bars setTimeout pending id].
      intros x [Hx | ->%list_elem_of_singleton]%elem_of_app Hne; [|done].
      split; [specialize (Hq x Hx); lia|]. intros w'. by apply Hnone.
  - unfold targetWidth_of. simpl. by intros [-> | ->].
Qed.

Lemma progress_reveal_witness :
  width_of 0
    (advance (λ _, true) 99
       (on_entry (λ _, true)
          (Page {[0 := Bar (Some (lit "75")) []]} (idle 0))
          (Entry 0 true)))
  = lit "0%"
  ∧ width_of 0
      (advance (λ _, true) 100
         (on_entry (λ _, true)
            (Page {[0 := Bar (Some (lit "75")) []]} (idle 0))
            (Entry 0 true)))
    = lit "75%".
Proof.
  assert (queue_ok (idle 0)) as Hq.
  { intros x Hx. by apply elem_of_nil in Hx. }
  assert (no_reveal_pending 0 (idle 0)) as Hnone.
  { intros x w Hx. by apply elem_of_nil in Hx. }
  assert (bars (Page {[0 := Bar (Some (lit "75")) []]} (idle 0)) !! 0
          = Some (Bar (Some (lit "75")) [])) as Hb
    by apply lookup_singleton_eq.
  split.
  - apply (progress_reveal (λ _, true) 0 (Bar (Some (lit "75")) [])
             (Page {[0 := Bar (Some (lit "75")) []]} (idle 0)) 99
             Hb eq_refl eq_refl Hq Hnone).
  - apply (progress_reveal (λ _, true) 0 (Bar (Some (lit "75")) [])
             (Page {[0 := Bar (Some (lit "75")) []]} (idle 0)) 100
             Hb eq_refl eq_refl Hq Hnone).
Defined.

End ProgressFacts.
